(** * mpags-cipher: the pipeline driver of [src/mpags-cipher.cpp]

    A shallow embedding of [main]: cipher construction, the ordering of the
    cipher stages, the four-way chunked execution of a stage through
    [std::async], the polling wait on the futures and the reassembly of the
    chunk results.  The cipher classes themselves ([CaesarCipher],
    [PlayfairCipher], [VigenereCipher]) and [CipherFactory] are not part of
    the translation unit; [main] only sees them through the [Cipher]
    interface, which is a type class here.  Concrete ciphers are modelled
    separately, from the specification, in [Module SpecCiphers]. *)

From Stdlib Require Import ZArith Ascii String Lia.
From stdpp Require Import base tactics option list numbers strings.

Local Open Scope Z_scope.

(** Contents of a [std::string]. *)
Abbreviation text := (list ascii).

(** ** [CipherType.hpp], [CipherMode.hpp] *)

(** [enum class CipherType]. *)
Inductive CipherType := Caesar | Playfair | Vigenere.

(** Modelled from the spec: [enum class CipherMode], declared in
    [CipherMode.hpp], a header that is not among the sources.  The closed
    set of section 3; [main] names both values. *)
Inductive CipherMode := Encrypt | Decrypt.

Global Instance CipherType_eq_dec : EqDecision CipherType.
Proof. solve_decision. Defined.

Global Instance CipherMode_eq_dec : EqDecision CipherMode.
Proof. solve_decision. Defined.

(** [class InvalidKey : public std::invalid_argument]: carries [what()]. *)
Record InvalidKey := mkInvalidKey { what : string }.

(** ** [std::size_t] and [std::string] primitives *)

(** [std::size_t] is a 64-bit unsigned integer: arithmetic wraps. *)
Definition size_t_modulus : Z := 2 ^ 64.

Definition wrap (x : Z) : Z := x mod size_t_modulus.

(** [s.size()] *)
Definition size (s : text) : Z := Z.of_nat (length s).

(** [s.substr(pos, n)]: throws [std::out_of_range] ([None]) when
    [pos > size()], otherwise the characters [pos, pos + min(n, size() - pos)). *)
Definition substr (s : text) (pos n : Z) : option text :=
  if decide (size s < pos) then None
  else Some (take (Z.to_nat n) (drop (Z.to_nat pos) s)).

(** ** The [Cipher] interface *)

(** The abstract base class [Cipher] is declared in a header that is not
    among the sources; it is a parameter of the model.  [main] uses one
    member, [applyCipher(text, mode)], which hands back a string. *)
Class CipherOps (Cipher : Type) := {
  applyCipher : Cipher -> text -> CipherMode -> text
}.

(** [CipherFactory::makeCipher] is a parameter of the model as well.  What
    [main] provides for (lines 108-122): the call throws [InvalidKey],
    hands back a null [unique_ptr], or hands back a cipher. *)
Inductive MakeResult (Cipher : Type) :=
  | Threw (e : InvalidKey)
  | NullPtr
  | Made (c : Cipher).
Arguments Threw {Cipher} e.
Arguments NullPtr {Cipher}.
Arguments Made {Cipher} c.

(** ** Chunk bounds (lines 135-144) *)

Definition numThreads : Z := 4.

(** [cipherText.size() / numThreads] *)
Definition chunkSize (cipherText : text) : Z := size cipherText / numThreads.

(** [std::size_t start = i * chunkSize;] *)
Definition start (cipherText : text) (i : Z) : Z :=
  wrap (i * chunkSize cipherText).

(** [std::size_t end = (i == numThreads - 1) ? cipherText.size()
                                              : (i + 1) * chunkSize;] *)
Definition end_ (cipherText : text) (i : Z) : Z :=
  if decide (i = wrap (numThreads - 1)) then size cipherText
  else wrap ((i + 1) * chunkSize cipherText).

(** [cipherText.substr(start, end - start)] as evaluated by task [i]. *)
Definition chunk (cipherText : text) (i : Z) : option text :=
  substr cipherText (start cipherText i)
         (wrap (end_ cipherText i - start cipherText i)).

(** The values taken by the loop counter of
    [for (std::size_t i = 0; i < numThreads; ++i)]. *)
Definition task_indices : list Z := seqZ 0 numThreads.

Definition chunks (cipherText : text) : list (option text) :=
  chunk cipherText <$> task_indices.

(** The characters at positions [start, end) of the text: what task [i]
    is meant to work on. *)
Definition slice (cipherText : text) (i : Z) : text :=
  take (Z.to_nat (end_ cipherText i - start cipherText i))
       (drop (Z.to_nat (start cipherText i)) cipherText).

(** ** Observable behaviour of [main] *)

(** Modelled from the spec: [struct ProgramSettings], declared in
    [ProcessCommandLine.hpp], a header that is not among the sources: what
    the command-line layer supplies (section 6).  The fields are the ones
    [main] reads, in the order of the aggregate initialiser
    [{false, false, "", "", {}, {}, CipherMode::Encrypt}]. *)
Record ProgramSettings := mkSettings {
  helpRequested : bool;
  versionRequested : bool;
  inputFile : text;
  outputFile : text;
  cipherType : list CipherType;
  cipherKey : list text;
  cipherMode : CipherMode
}.

(** The file system and terminal as [main] sees them.  The input streams
    deliver the characters already passed through [transformChar]
    (lines 90-92 and 97-99); [None] stands for a stream that is not
    [good()]. *)
Record Env := mkEnv {
  ifstream : text -> option text;
  cin : text;
  ofstream_good : text -> bool
}.

(** The help text of lines 42-61, [std::endl] included. *)
Definition nl : text := [ascii_of_nat 10].

Definition usage : text :=
  list_ascii_of_string "Usage: mpags-cipher [-h/--help] [--version] [-i <file>] [-o <file>] [-c <cipher>] [-k <key>] [--encrypt/--decrypt]" ++ nl ++ nl ++
  list_ascii_of_string "Encrypts/Decrypts input alphanumeric text using classical ciphers" ++ nl ++ nl ++
  list_ascii_of_string "Available options:" ++ nl ++ nl ++
  list_ascii_of_string "  -h|--help        Print this help message and exit" ++ nl ++ nl ++
  list_ascii_of_string "  --version        Print version information" ++ nl ++ nl ++
  list_ascii_of_string "  -i FILE          Read text to be processed from FILE" ++ nl ++
  list_ascii_of_string "                   Stdin will be used if not supplied" ++ nl ++ nl ++
  list_ascii_of_string "  -o FILE          Write processed text to FILE" ++ nl ++
  list_ascii_of_string "                   Stdout will be used if not supplied" ++ nl ++ nl ++
  list_ascii_of_string "                   Stdout will be used if not supplied" ++ nl ++ nl ++
  list_ascii_of_string "  --multi-cipher N Specify the number of ciphers to be used in sequence" ++ nl ++
  list_ascii_of_string "                   N should be a positive integer - defaults to 1" ++
  list_ascii_of_string "  -c CIPHER        Specify the cipher to be used to perform the encryption/decryption" ++ nl ++
  list_ascii_of_string "                   CIPHER can be caesar, playfair, or vigenere - caesar is the default" ++ nl ++ nl ++
  list_ascii_of_string "  -k KEY           Specify the cipher KEY" ++ nl ++
  list_ascii_of_string "                   A null key, i.e. no encryption, is used if not supplied" ++ nl ++ nl ++
  list_ascii_of_string "  --encrypt        Will use the cipher to encrypt the input text (default behaviour)" ++ nl ++ nl ++
  list_ascii_of_string "  --decrypt        Will use the cipher to decrypt the input text" ++ nl ++ nl ++
  nl.

Section Main.
Context {Cipher : Type} {ops : CipherOps Cipher}.

(** What a run does that can be seen from outside, in program order.
    [EvAsync i c chunk m] is the call [c->applyCipher(chunk, m)] made by
    the task launched at loop index [i]; [EvDirect] is the call of
    line 172. *)
Inductive Event :=
  | EvMake (t : CipherType) (key : text)
  | EvAsync (i : Z) (c : Cipher) (chunk : text) (m : CipherMode)
  | EvDirect (c : Cipher) (input : text) (m : CipherMode)
  | EvCerr (msg : string)
  | EvCout (s : text)
  | EvFile (name : text) (s : text).

(** How a piece of [main] ends: it falls through with a value, executes
    [return code;], lets an exception escape ([std::terminate]), or
    indexes a vector out of bounds. *)
Inductive Exc (A : Type) :=
  | Val (a : A)
  | Return (code : Z)
  | Uncaught
  | Undefined.
Arguments Val {A} a.
Arguments Return {A} code.
Arguments Uncaught {A}.
Arguments Undefined {A}.

(** The monad [main] runs in: the events so far, and how the piece
    ended. *)
Record M (A : Type) := mkM { trace : list Event; result : Exc A }.
Arguments mkM {A} trace result.
Arguments trace {A} m.
Arguments result {A} m.

(** Falling through with a value. *)
Global Instance M_ret : MRet M := fun A a => mkM [] (Val a).

(** Sequencing: what follows runs only when the first piece falls
    through; a [return], an escaped exception or undefined behaviour ends
    the run there. *)
Global Instance M_bind : MBind M := fun A B k m =>
  match result m with
  | Val a => mkM (trace m ++ trace (k a)) (result (k a))
  | Return code => mkM (trace m) (Return code)
  | Uncaught => mkM (trace m) Uncaught
  | Undefined => mkM (trace m) Undefined
  end.

(** One event, several events, [return code;], an exception that nothing
    catches, undefined behaviour. *)
Definition emit (e : Event) : M unit := mkM [e] (Val tt).
Definition emits (es : list Event) : M unit := mkM es (Val tt).
Definition return_ {A} (code : Z) : M A := mkM [] (Return code).
Definition uncaught {A} : M A := mkM [] Uncaught.
Definition undefined {A} : M A := mkM [] Undefined.

(** The events that are calls of [applyCipher], and those that write the
    processed text. *)
Definition is_apply (e : Event) : bool :=
  match e with EvAsync _ _ _ _ | EvDirect _ _ _ => true | _ => false end.

Definition is_output (e : Event) : bool :=
  match e with EvCout _ | EvFile _ _ => true | _ => false end.

(** An event that is neither a transform nor a write of the result. *)
Definition quiet (e : Event) : Prop :=
  is_apply e = false /\ is_output e = false.

Variable makeCipher : CipherType -> text -> MakeResult Cipher.
Variable env : Env.
Variable settings : ProgramSettings.

(** *** Lines 79-100: reading the input *)

Definition read_input : M text :=
  if decide (inputFile settings = []) then mret (cin env)
  else
    match ifstream env (inputFile settings) with
    | None =>
        emit (EvCerr ("[error] failed to create istream on file '"
                        +:+ string_of_list_ascii (inputFile settings)
                        +:+ "'"));;
        return_ 1
    | Some s => mret s
    end.

(** *** Lines 103-123: construction of the ciphers *)

(** The loop body from index [iCipher] on; [types] is what is left of
    [settings.cipherType] and [ciphers] the vector built so far. *)
Fixpoint construct (types : list CipherType) (iCipher : nat)
    (ciphers : list Cipher) : M (list Cipher) :=
  match types with
  | [] => mret ciphers
  | t :: types' =>
      match cipherKey settings !! iCipher with
      | None => undefined
      | Some key =>
          emit (EvMake t key);;
          match makeCipher t key with
          | Threw e =>
              emit (EvCerr ("[error] Invalid Key: " +:+ what e));;
              return_ 1
          | NullPtr =>
              emit (EvCerr "[error] problem constructing requested cipher");;
              return_ 1
          | Made c => construct types' (S iCipher) (ciphers ++ [c])
          end
      end
  end.

(** *** Lines 132-169: the chunked branch *)

(** The body of the lambda handed to [std::async], with [start] and [end]
    captured by value: [None] when [substr] throws. *)
Definition task (front : Cipher) (cipherText : text) (i : Z) : option text :=
  c ← chunk cipherText i;
  Some (applyCipher front c (cipherMode settings)).

(** What the task of index [i] hands back when [substr] does not throw
    and yields the slice [start, end). *)
Definition task_value (front : Cipher) (cipherText : text) (i : Z) : text :=
  applyCipher front (slice cipherText i) (cipherMode settings).

Definition task_event (front : Cipher) (cipherText : text) (i : Z)
    : list Event :=
  match chunk cipherText i with
  | Some c => [EvAsync i front c (cipherMode settings)]
  | None => []
  end.

(** [cipherText = ""; for (auto& future : futures) cipherText += future.get();]
    where [get] rethrows what the task threw. *)
Fixpoint collect (futures : list (option text)) (cipherText : text)
    : M text :=
  match futures with
  | [] => mret cipherText
  | None :: _ => uncaught
  | Some r :: futures' => collect futures' (cipherText ++ r)
  end.

(** One pass through the [if] branch.  [cipher] is the loop variable;
    the tasks use [ciphers.front()].  The applyCipher calls of the four
    tasks are listed by task index. *)
Definition parallel (ciphers : list Cipher) (cipher : Cipher)
    (cipherText : text) : M text :=
  let front := default cipher (head ciphers) in
  emits (concat (task_event front cipherText <$> task_indices));;
  collect (task front cipherText <$> task_indices) [].

(** *** Line 172: the direct branch *)

Definition direct (cipher : Cipher) (cipherText : text) : M text :=
  emit (EvDirect cipher cipherText (cipherMode settings));;
  mret (applyCipher cipher cipherText (cipherMode settings)).

(** The calls that a sequence of direct stages makes, each on the output
    of the one before. *)
Fixpoint direct_calls (todo : list Cipher) (cipherText : text)
    : list Event :=
  match todo with
  | [] => []
  | cipher :: todo' =>
      EvDirect cipher cipherText (cipherMode settings)
      :: direct_calls todo'
           (applyCipher cipher cipherText (cipherMode settings))
  end.

(** [std::find(cipherType.begin(), cipherType.end(), CipherType::Caesar)
     != cipherType.end()] *)
Definition caesar_requested : bool :=
  bool_decide (Caesar ∈ cipherType settings).

(** *** Lines 131-174: the loop over the ciphers *)

Fixpoint run_ciphers (ciphers todo : list Cipher) (cipherText : text)
    : M text :=
  match todo with
  | [] => mret cipherText
  | cipher :: todo' =>
      cipherText' ← (if caesar_requested
                      then parallel ciphers cipher cipherText
                      else direct cipher cipherText);
      run_ciphers ciphers todo' cipherText'
  end.

(** *** Lines 176-192: writing the result *)

Definition write_output (cipherText : text) : M unit :=
  if decide (outputFile settings = []) then emit (EvCout (cipherText ++ nl))
  else if ofstream_good env (outputFile settings)
  then emit (EvFile (outputFile settings) (cipherText ++ nl))
  else
    emit (EvCerr ("[error] failed to create ostream on file '"
                    +:+ string_of_list_ascii (outputFile settings)
                    +:+ "'"));;
    return_ 1.

(** *** Lines 102-197 *)

(** Lines 126-128: [std::reverse(ciphers.begin(), ciphers.end())] when
    decrypting. *)
Definition staged (ciphers : list Cipher) : list Cipher :=
  if decide (cipherMode settings = Decrypt) then reverse ciphers else ciphers.

Definition process (cipherText : text) : M unit :=
  ciphers ← construct (cipherType settings) 0 [];
  let ciphers := staged ciphers in
  cipherText' ← run_ciphers ciphers ciphers cipherText;
  write_output cipherText';;
  return_ 0.

(** *** [main], after [processCommandLine] has filled [settings] *)

Definition main : M unit :=
  if helpRequested settings then emit (EvCout usage);; return_ 0
  else if versionRequested settings
  then emit (EvCout (list_ascii_of_string "0.5.0" ++ nl));; return_ 0
  else
    cipherText ← read_input;
    process cipherText.

End Main.

Arguments Val {A} a.
Arguments Return {A} code.
Arguments Uncaught {A}.
Arguments Undefined {A}.
Arguments Event : clear implicits.
Arguments M : clear implicits.
Arguments mkM {Cipher A} trace result.
Arguments trace {Cipher A} m.
Arguments result {Cipher A} m.

(** ** Predicates on runs and events *)

(** A piece of [main] that accounts for the way it leaves [main]: with
    status 0 right after writing to standard output or to the output
    file, or with status 1 right after a message on standard error. *)
Definition accounted {Cipher A : Type} (m : M Cipher A) : Prop :=
  forall code, result m = Return code ->
    (code = 0 /\ exists e, last (trace m) = Some e /\ is_output e = true)
    \/ (code = 1 /\ exists msg, last (trace m) = Some (EvCerr msg)).

(** An [applyCipher] call as the loop over the ciphers makes it: by a
    chunk task when a Caesar is among the requested kinds, directly
    otherwise, and in the mode of the run. *)
Definition one_branch {Cipher : Type} (settings : ProgramSettings)
    (e : Event Cipher) : Prop :=
  match e with
  | EvAsync _ _ _ m =>
      caesar_requested settings = true /\ m = cipherMode settings
  | EvDirect _ _ m =>
      caesar_requested settings = false /\ m = cipherMode settings
  | _ => True
  end.

(** A cipher that the factory makes from one of the requested kinds. *)
Definition made_for_run {Cipher : Type}
    (makeCipher : CipherType -> text -> MakeResult Cipher)
    (settings : ProgramSettings) (c : Cipher) : Prop :=
  exists t key, t ∈ cipherType settings /\ makeCipher t key = Made c.

(** * The futures *)

(** The functional reading of the chunked branch in [parallel] lists the
    task results by index.  The two models below look at what it leaves
    out: the order in which the tasks complete, and the time spent in the
    wait loop. *)

(** ** Completion order (lines 146-169) *)

Section Schedule.
Context {Cipher : Type} {ops : CipherOps Cipher}.
Variable settings : ProgramSettings.

(** The shared state of a [std::future<std::string>]: not ready yet
    ([None]), or ready with the task's value or exception. *)
Abbreviation future := (option (option text)).

(** The data a stage shares between the main thread and its tasks:
    [cipherText], captured by reference, and the vector [futures]. *)
Record StageState := mkStage {
  buffer : text;
  futures : list future
}.

(** After the launching loop: every future exists, none is ready. *)
Definition launch (cipherText : text) : StageState :=
  mkStage cipherText (replicate (Z.to_nat numThreads) None).

(** Task [i] runs to completion: it reads the shared buffer and makes
    its own future ready. *)
Definition complete (front : Cipher) (st : StageState) (i : nat)
    : StageState :=
  mkStage (buffer st)
          (<[i := Some (task settings front (buffer st) (Z.of_nat i))]>
             (futures st)).

(** The tasks complete in the order [sched]. *)
Definition run_tasks (front : Cipher) (st : StageState) (sched : list nat)
    : StageState :=
  foldl (complete front) st sched.

(** The wait loop of lines 158-163 lets the main thread through only
    when every future is ready. *)
Definition wait_all (st : StageState) : option (list (option text)) :=
  mapM id (futures st).

(** The chunked branch when the tasks complete in the order [sched]:
    [None] when the main thread stays in the wait loop. *)
Definition parallel_scheduled (ciphers : list Cipher) (cipher : Cipher)
    (cipherText : text) (sched : list nat) : option (M Cipher text) :=
  let front := default cipher (head ciphers) in
  results ← wait_all (run_tasks front (launch cipherText) sched);
  Some (collect results []).

End Schedule.

(** ** The wait loop (lines 158-163) *)

(** [std::future_status]; a task launched with [std::launch::async] is
    never [deferred]. *)
Inductive future_status := ready | timeout.

Global Instance future_status_eq_dec : EqDecision future_status.
Proof. solve_decision. Defined.

(** [future.wait_for(std::chrono::seconds(d))] at time [now], on a task
    that completes at time [completes] ([None]: never).  Returns the status
    and the time at which the call returns. *)
Definition wait_for (completes : option Z) (now d : Z) : future_status * Z :=
  match completes with
  | Some t =>
      if decide (t <= now + d) then (ready, Z.max now t)
      else (timeout, now + d)
  | None => (timeout, now + d)
  end.

(** [while (status != std::future_status::ready)
       status = future.wait_for(std::chrono::seconds(2));]
    [fuel] bounds the number of times the condition is evaluated; [None]
    is a loop still running when the fuel is spent. *)
Fixpoint while_not_ready (fuel : nat) (completes : option Z)
    (status : future_status) (now : Z) : option Z :=
  match fuel with
  | O => None
  | S fuel' =>
      if decide (status = ready) then Some now
      else
        let '(status', now') := wait_for completes now 2 in
        while_not_ready fuel' completes status' now'
  end.

(** The body of [for (auto& future : futures)]. *)
Definition wait_future (fuel : nat) (completes : option Z) (now : Z)
    : option Z :=
  let '(status, now') := wait_for completes now 1 in
  while_not_ready fuel completes status now'.

(** The whole loop, over the futures in index order. *)
Fixpoint wait_futures (fuel : nat) (tasks : list (option Z)) (now : Z)
    : option Z :=
  match tasks with
  | [] => Some now
  | completes :: tasks' =>
      now' ← wait_future fuel completes now;
      wait_futures fuel tasks' now'
  end.

(** * The ciphers behind the interface *)

(** [CaesarCipher], [PlayfairCipher], [VigenereCipher] and [CipherFactory]
    are declared in headers that [main] includes but are defined elsewhere.
    The definitions of this module follow the specification's description of
    them (sections 3, 4.2, 4.3, 4.4 and 7). *)
Module SpecCiphers.

(** Modelled from the spec: the alphabet position of a character
    (sections 4.2 and 4.3), the index of its first occurrence in [l]. *)
Fixpoint position (l : text) (c : ascii) : option nat :=
  match l with
  | [] => None
  | x :: l' => if decide (x = c) then Some 0%nat else S <$> position l' c
  end.

(** Modelled from the spec: the two candidate alphabets of section 4.2,
    letters only (26) or letters followed by digits (36). *)
Definition letters : text := list_ascii_of_string "ABCDEFGHIJKLMNOPQRSTUVWXYZ".

(** Modelled from the spec: the digits of section 4.2. *)
Definition digits : text := list_ascii_of_string "0123456789".

(** Modelled from the spec: the alphabet of 36 symbols of section 4.2. *)
Definition alphanumeric : text := letters ++ digits.

Section Alphabet.
Variable alphabet : text.

(** Modelled from the spec: the alphabet size [A] of section 4.2. *)
Definition asize : Z := size alphabet.

(** Modelled from the spec: the Caesar and Vigenere character shift of
    sections 4.2 and 4.3 (the cipher classes are not in the translation
    unit).  A character at alphabet position [p] goes to position
    [(p + k) mod A] when encrypting and [(p - k + A) mod A] when
    decrypting; a character outside the alphabet passes through
    unchanged. *)
Definition shift_position (m : CipherMode) (k p : Z) : Z :=
  match m with
  | Encrypt => (p + k) mod asize
  | Decrypt => (p - k + asize) mod asize
  end.

(** Modelled from the spec: the shift above on a character (section 4.2);
    a character outside the alphabet passes through unchanged. *)
Definition shift_char (m : CipherMode) (k : Z) (c : ascii) : ascii :=
  match position alphabet c with
  | Some p =>
      default c (alphabet !! Z.to_nat (shift_position m k (Z.of_nat p)))
  | None => c
  end.

(** Modelled from the spec: the Caesar transform of section 4.2, one
    shift [k] for every character. *)
Definition caesar (k : Z) (s : text) (m : CipherMode) : text :=
  shift_char m k <$> s.

(** Modelled from the spec: the Vigenere transform of section 4.3.  The
    [i]-th character of the text is shifted by [key[i mod keyLength]],
    [key] holding the alphabet positions of the key letters. *)
Definition vigenere (key : list Z) (s : text) (m : CipherMode) : text :=
  imap (fun i c =>
          shift_char m (default 0 (key !! (i mod length key)%nat)) c) s.

(** *** Key validation (sections 3 and 7) *)

(** Modelled from the spec: the value of a decimal digit of a numeric
    key (section 3). *)
Definition digit_value (c : ascii) : option Z :=
  Z.of_nat <$> position digits c.

(** Modelled from the spec: the integer a numeric key stands for
    (section 3), [None] when a character is not a digit. *)
Fixpoint decimal (acc : Z) (s : text) : option Z :=
  match s with
  | [] => Some acc
  | c :: s' => d ← digit_value c; decimal (10 * acc + d) s'
  end.

(** Modelled from the spec: the Caesar key of section 3, an integer
    shift derived from a numeric or single-letter key, rejected unless
    in [[0, A)].  The null key is the zero shift (the usage text:
    a null key, i.e. no encryption). *)
Definition caesar_key (key : text) : option Z :=
  match key with
  | [] => Some 0
  | _ =>
      match decimal 0 key with
      | Some n => if decide (n < asize) then Some n else None
      | None =>
          match key with
          | [c] => Z.of_nat <$> position alphabet c
          | _ => None
          end
      end
  end.

(** Modelled from the spec: the Vigenere key of section 3, a non-empty
    string of alphabet characters, each mapped to its position. *)
Definition vigenere_key (key : text) : option (list Z) :=
  match key with
  | [] => None
  | _ => mapM (fun c => Z.of_nat <$> position alphabet c) key
  end.

End Alphabet.

(** *** Playfair (section 4.4) *)

(** Modelled from the spec: the 25 letters of the grid (section 3), the
    alphabet without J. *)
Definition playfair_letters : text :=
  list_ascii_of_string "ABCDEFGHIKLMNOPQRSTUVWXYZ".

(** Modelled from the spec: a key phrase is reduced to its letters
    (section 3); lower-case letters count as their upper-case ones. *)
Definition to_upper (c : ascii) : ascii :=
  let n := nat_of_ascii c in
  if decide (97 <= n <= 122)%nat then ascii_of_nat (n - 32) else c.

(** Modelled from the spec: J is merged into I (sections 3 and 4.4). *)
Definition merge (c : ascii) : ascii :=
  if decide (c = "J"%char) then "I"%char else c.

(** Modelled from the spec: deduplication preserving first occurrence
    (section 4.4); keeps the first occurrence of every character that is
    not in [seen]. *)
Fixpoint dedup (seen l : text) : text :=
  match l with
  | [] => []
  | c :: l' =>
      if decide (c ∈ seen) then dedup seen l' else c :: dedup (c :: seen) l'
  end.

(** Modelled from the spec: the letters of a key word or phrase
    (section 3), J merged into I. *)
Definition key_letters (key : text) : text :=
  merge <$> filter (fun c => c ∈ letters) (to_upper <$> key).

(** Modelled from the spec: the Playfair grid of sections 3 and 4.4, the
    key letters without repetition, J merged into I, followed by the
    remaining letters in alphabet order; row-major, 5 by 5. *)
Definition playfair_grid (key : text) : text :=
  dedup [] (key_letters key ++ playfair_letters).

(** Modelled from the spec: the filler of section 4.4: X, or Q when X is
    the letter it goes with. *)
Definition filler (c : ascii) : ascii :=
  if decide (c = "X"%char) then "Q"%char else "X"%char.

(** Modelled from the spec: the digraph split of section 4.4.  A pair of
    identical letters gets a filler between them (the second letter then
    starts the next pair); a letter left alone at the end gets a filler
    after it. *)
Fixpoint digraphs (s : text) : list (ascii * ascii) :=
  match s with
  | [] => []
  | a :: t =>
      match t with
      | [] => [(a, filler a)]
      | b :: s' =>
          if decide (a = b) then (a, filler a) :: digraphs t
          else (a, b) :: digraphs s'
      end
  end.

(** Modelled from the spec: the cell of the row-major 5 by 5 grid at
    index [p] (section 4.4). *)
Definition cell (grid : text) (p : Z) : ascii :=
  default "X"%char (grid !! Z.to_nat p).

(** Modelled from the spec: one column right or one row down when
    encrypting, left or up when decrypting (section 4.4). *)
Definition direction (m : CipherMode) : Z :=
  match m with Encrypt => 1 | Decrypt => -1 end.

(** Modelled from the spec: the digraph rules of section 4.4 on the grid
    indices [pa], [pb] of the two letters, with row [p / 5] and column
    [p mod 5]: same row, same column, rectangle. *)
Definition pair_rule (m : CipherMode) (pa pb : Z) : Z * Z :=
  let '(ra, ca) := (pa / 5, pa mod 5) in
  let '(rb, cb) := (pb / 5, pb mod 5) in
  let d := direction m in
  if decide (ra = rb)
  then (5 * ra + (ca + d) mod 5, 5 * rb + (cb + d) mod 5)
  else if decide (ca = cb)
  then (5 * ((ra + d) mod 5) + ca, 5 * ((rb + d) mod 5) + cb)
  else (5 * ra + cb, 5 * rb + ca).

(** Modelled from the spec: a digraph through the grid.  A digraph with a
    character that is not in the grid passes through unchanged. *)
Definition playfair_pair (grid : text) (m : CipherMode)
    (ab : ascii * ascii) : ascii * ascii :=
  match position grid ab.1, position grid ab.2 with
  | Some pa, Some pb =>
      let q := pair_rule m (Z.of_nat pa) (Z.of_nat pb) in
      (cell grid q.1, cell grid q.2)
  | _, _ => ab
  end.

(** Modelled from the spec: a digraph written out (section 4.4). *)
Definition undigraph (p : ascii * ascii) : text := [p.1; p.2].

(** Modelled from the spec: the Playfair transform of section 4.4:
    digraph split, then the digraph rules pair by pair. *)
Definition playfair (grid : text) (s : text) (m : CipherMode) : text :=
  (playfair_pair grid m <$> digraphs s) ≫= undigraph.

(** A text that the digraph split leaves alone: an even number of
    characters, no pair of identical letters. *)
Fixpoint well_paired (s : text) : bool :=
  match s with
  | [] => true
  | a :: t =>
      match t with
      | [] => false
      | b :: s' => bool_decide (a <> b) && well_paired s'
      end
  end.

(** *** The cipher variants and the factory *)

(** Modelled from the spec: a cipher instance (section 3), one of three
    variants with its validated key material. *)
Inductive Cipher :=
  | CaesarCipher (k : Z)
  | PlayfairCipher (grid : text)
  | VigenereCipher (key : list Z).

Global Instance Cipher_eq_dec : EqDecision Cipher.
Proof. solve_decision. Defined.

(** Modelled from the spec: the one capability of a cipher (sections 2
    and 9), [transform(text, mode) -> text], over the alphabet
    [alphabet]. *)
Definition apply (alphabet : text) (c : Cipher) (s : text)
    (m : CipherMode) : text :=
  match c with
  | CaesarCipher k => caesar alphabet k s m
  | PlayfairCipher grid => playfair grid s m
  | VigenereCipher key => vigenere alphabet key s m
  end.

(** Modelled from the spec: [CipherFactory::makeCipher] (sections 2 and 7):
    validates the key for the kind and constructs the cipher, or throws
    [InvalidKey].  Every Playfair key populates a valid grid. *)
Definition makeCipher (alphabet : text) (t : CipherType) (key : text)
    : MakeResult Cipher :=
  match t with
  | Caesar =>
      match caesar_key alphabet key with
      | Some k => Made (CaesarCipher k)
      | None => Threw (mkInvalidKey "Caesar key is not a shift in range")
      end
  | Playfair => Made (PlayfairCipher (playfair_grid key))
  | Vigenere =>
      match vigenere_key alphabet key with
      | Some k => Made (VigenereCipher k)
      | None => Threw (mkInvalidKey "Vigenere key is empty or not alphabetic")
      end
  end.


(** Modelled from the spec: the ciphers as implementations of the
    [Cipher] interface. *)
Definition cipher_ops (alphabet : text) : CipherOps Cipher :=
  {| applyCipher := apply alphabet |}.

(** The instance used to run [main]: letters only. *)
Global Instance letters_cipher : CipherOps Cipher := cipher_ops letters.

End SpecCiphers.

(** * Properties *)

(** ** Facts on the chunk bounds *)

Section ChunkBounds.
Variable cipherText : text.
Hypothesis size_fits : size cipherText < size_t_modulus.

Lemma size_nonneg : 0 <= size cipherText.
Proof. unfold size. lia. Qed.

Lemma chunkSize_bounds :
  0 <= chunkSize cipherText /\
  numThreads * chunkSize cipherText <= size cipherText /\
  size cipherText =
    numThreads * chunkSize cipherText + size cipherText mod numThreads.
Proof.
  unfold chunkSize, numThreads. pose proof size_nonneg.
  pose proof (Z.div_mod (size cipherText) 4 ltac:(lia)).
  pose proof (Z.mod_pos_bound (size cipherText) 4 ltac:(lia)).
  lia.
Qed.

Lemma start_exact i :
  0 <= i <= numThreads -> start cipherText i = i * chunkSize cipherText.
Proof.
  intros Hi. unfold start, wrap. apply Z.mod_small.
  pose proof chunkSize_bounds. unfold size_t_modulus, numThreads in *. nia.
Qed.

Lemma end_exact i :
  0 <= i < numThreads ->
  end_ cipherText i =
    if decide (i = numThreads - 1) then size cipherText
    else (i + 1) * chunkSize cipherText.
Proof.
  intros Hi. unfold end_.
  replace (wrap (numThreads - 1)) with (numThreads - 1) by reflexivity.
  case_decide; [done|].
  apply (start_exact (i + 1)). lia.
Qed.

Lemma start_le_end i :
  0 <= i < numThreads ->
  0 <= start cipherText i <= end_ cipherText i
  /\ end_ cipherText i <= size cipherText.
Proof.
  intros Hi. rewrite start_exact, end_exact by lia.
  pose proof chunkSize_bounds. unfold numThreads in *.
  case_decide; nia.
Qed.

Lemma chunk_length_exact i :
  0 <= i < numThreads ->
  wrap (end_ cipherText i - start cipherText i) =
    end_ cipherText i - start cipherText i.
Proof.
  intros Hi. pose proof (start_le_end i Hi).
  unfold wrap. apply Z.mod_small. lia.
Qed.

Lemma chunk_in_range i :
  0 <= i < numThreads ->
  chunk cipherText i =
    Some (take (Z.to_nat (end_ cipherText i - start cipherText i))
               (drop (Z.to_nat (start cipherText i)) cipherText)).
Proof.
  intros Hi. unfold chunk, substr.
  pose proof (start_le_end i Hi).
  rewrite chunk_length_exact by done.
  case_decide; [lia|done].
Qed.

Lemma chunk_size i c :
  0 <= i < numThreads ->
  chunk cipherText i = Some c ->
  size c = end_ cipherText i - start cipherText i.
Proof.
  intros Hi. rewrite chunk_in_range by done. intros [= <-].
  pose proof (start_le_end i Hi). unfold size in *.
  rewrite length_take, length_drop. lia.
Qed.

End ChunkBounds.

Lemma task_indices_eq : task_indices = [0; 1; 2; 3].
Proof. reflexivity. Qed.

Lemma elem_of_task_indices i : i ∈ task_indices <-> 0 <= i < numThreads.
Proof. unfold task_indices. rewrite elem_of_seqZ. unfold numThreads. lia. Qed.

(** A slice followed by the rest is the tail it was cut from. *)
Lemma slice_app_drop (l : text) (a b : nat) :
  (a <= b)%nat -> take (b - a) (drop a l) ++ drop b l = drop a l.
Proof.
  intros Hab. rewrite <- (take_drop (b - a) (drop a l)) at 2.
  rewrite drop_drop. do 3 f_equal. lia.
Qed.

Section ChunkPartition.
Variable cipherText : text.
Hypothesis size_fits : size cipherText < size_t_modulus.

Lemma chunks_slices : chunks cipherText = Some <$> (slice cipherText <$> task_indices).
Proof.
  unfold chunks. rewrite <- list_fmap_compose.
  apply Forall_fmap_ext, Forall_forall. intros i Hi%elem_of_task_indices.
  by apply chunk_in_range.
Qed.

Lemma start_0 : start cipherText 0 = 0.
Proof. rewrite start_exact by (done || unfold numThreads; lia). lia. Qed.

Lemma end_start_succ i :
  0 <= i < numThreads - 1 -> end_ cipherText i = start cipherText (i + 1).
Proof.
  intros Hi. rewrite end_exact, start_exact by (done || lia).
  case_decide; [lia|done].
Qed.

Lemma end_last : end_ cipherText (numThreads - 1) = size cipherText.
Proof.
  rewrite end_exact by (done || unfold numThreads; lia).
  by case_decide.
Qed.

Lemma slice_app_rest i :
  0 <= i < numThreads ->
  slice cipherText i ++ drop (Z.to_nat (end_ cipherText i)) cipherText
  = drop (Z.to_nat (start cipherText i)) cipherText.
Proof.
  intros Hi. pose proof (start_le_end cipherText size_fits i Hi).
  unfold slice. rewrite Z2Nat.inj_sub by lia. apply slice_app_drop. lia.
Qed.

Lemma concat_slices : concat (slice cipherText <$> task_indices) = cipherText.
Proof.
  rewrite task_indices_eq. cbn [fmap list_fmap concat]. rewrite app_nil_r.
  pose proof (end_start_succ 0 ltac:(unfold numThreads; lia)) as E0.
  pose proof (end_start_succ 1 ltac:(unfold numThreads; lia)) as E1.
  pose proof (end_start_succ 2 ltac:(unfold numThreads; lia)) as E2.
  pose proof end_last as E3.
  change (0 + 1) with 1 in E0. change (1 + 1) with 2 in E1.
  change (2 + 1) with 3 in E2. change (numThreads - 1) with 3 in E3.
  assert (H3 : slice cipherText 3
               = drop (Z.to_nat (start cipherText 3)) cipherText).
  { rewrite <- (slice_app_rest 3) by (unfold numThreads; lia).
    rewrite E3. unfold size. rewrite Nat2Z.id, drop_all.
    by rewrite app_nil_r. }
  rewrite H3, <- E2, slice_app_rest by (unfold numThreads; lia).
  rewrite <- E1, slice_app_rest by (unfold numThreads; lia).
  rewrite <- E0, slice_app_rest by (unfold numThreads; lia).
  rewrite start_0. reflexivity.
Qed.

Lemma slice_size i :
  0 <= i < numThreads ->
  size (slice cipherText i) =
    if decide (i = numThreads - 1)
    then chunkSize cipherText + size cipherText mod numThreads
    else chunkSize cipherText.
Proof.
  intros Hi.
  rewrite (chunk_size cipherText size_fits i (slice cipherText i) Hi)
    by (by apply chunk_in_range).
  rewrite end_exact, start_exact by (done || lia).
  pose proof (chunkSize_bounds cipherText). unfold numThreads in *.
  case_decide; lia.
Qed.

End ChunkPartition.

Lemma size_0_nil (s : text) : size s = 0 -> s = [].
Proof. unfold size. destruct s; [done|]. simpl. lia. Qed.

Lemma short_text_slices (cipherText : text) :
  size cipherText < numThreads ->
  slice cipherText <$> task_indices = [[]; []; []; cipherText].
Proof.
  intros Hshort.
  assert (Hfits : size cipherText < size_t_modulus)
    by (unfold numThreads, size_t_modulus in *; lia).
  assert (Hcs : chunkSize cipherText = 0).
  { unfold chunkSize. apply Z.div_small.
    pose proof (size_nonneg cipherText). lia. }
  pose proof (concat_slices cipherText Hfits) as Hcat.
  assert (Hempty : forall i, 0 <= i < numThreads - 1 -> slice cipherText i = []).
  { intros i Hi. apply size_0_nil.
    rewrite slice_size by (done || lia). case_decide; lia. }
  rewrite task_indices_eq in *. cbn [fmap list_fmap concat] in *.
  rewrite !Hempty in * by (unfold numThreads; lia).
  rewrite app_nil_r in Hcat. simpl in Hcat. by rewrite Hcat.
Qed.

(** ** The monad of [main] *)

Section MonadFacts.
Context {Cipher : Type}.
Implicit Types (A B : Type).

Lemma bind_Val {A B} (m : M Cipher A) (k : A -> M Cipher B) a :
  result m = Val a ->
  m ≫= k = mkM (trace m ++ trace (k a)) (result (k a)).
Proof. intros H. unfold mbind, M_bind. by rewrite H. Qed.

Lemma bind_Return {A B} (m : M Cipher A) (k : A -> M Cipher B) code :
  result m = Return code -> m ≫= k = mkM (trace m) (Return code).
Proof. intros H. unfold mbind, M_bind. by rewrite H. Qed.

Lemma M_eta {A} (m : M Cipher A) : mkM (trace m) (result m) = m.
Proof. by destruct m. Qed.

Lemma bind_emits {B} es (k : unit -> M Cipher B) :
  emits es ≫= k = mkM (es ++ trace (k tt)) (result (k tt)).
Proof. reflexivity. Qed.

Lemma bind_emit {B} e (k : unit -> M Cipher B) :
  emit e ≫= k = mkM (e :: trace (k tt)) (result (k tt)).
Proof. reflexivity. Qed.

Lemma bind_mret {A B} (a : A) (k : A -> M Cipher B) : mret a ≫= k = k a.
Proof. unfold mbind, M_bind, mret, M_ret. simpl. apply M_eta. Qed.

End MonadFacts.

(** ** The chunked branch, functionally *)

Section Parallel.
Context {Cipher : Type} {ops : CipherOps Cipher}.
Variable settings : ProgramSettings.

Lemma collect_Some (rs : list text) (acc : text) :
  collect (Cipher := Cipher) (Some <$> rs) acc = mret (acc ++ concat rs).
Proof.
  revert acc. induction rs as [|r rs IH]; intros acc; simpl.
  - by rewrite app_nil_r.
  - rewrite IH. by rewrite <- app_assoc.
Qed.

Lemma tasks_values (front : Cipher) cipherText :
  size cipherText < size_t_modulus ->
  task settings front cipherText <$> task_indices
  = Some <$> (task_value settings front cipherText <$> task_indices).
Proof.
  intros Hfits. rewrite <- list_fmap_compose.
  apply Forall_fmap_ext, Forall_forall. intros i Hi%elem_of_task_indices.
  unfold task. by rewrite chunk_in_range.
Qed.

Lemma tasks_events (front : Cipher) cipherText :
  size cipherText < size_t_modulus ->
  concat (task_event settings front cipherText <$> task_indices)
  = (fun i => EvAsync i front (slice cipherText i) (cipherMode settings))
      <$> task_indices.
Proof.
  intros Hfits. rewrite task_indices_eq. cbn [fmap list_fmap concat].
  unfold task_event.
  rewrite !chunk_in_range by (done || unfold numThreads; lia).
  reflexivity.
Qed.

(** The chunked branch never throws, and hands back the task values
    joined by index. *)
Lemma parallel_eq (ciphers : list Cipher) (cipher : Cipher) cipherText :
  size cipherText < size_t_modulus ->
  let front := default cipher (head ciphers) in
  parallel settings ciphers cipher cipherText
  = mkM ((fun i => EvAsync i front (slice cipherText i) (cipherMode settings))
           <$> task_indices)
        (Val (concat (task_value settings front cipherText <$> task_indices))).
Proof.
  intros Hfits front. unfold parallel. fold front.
  rewrite tasks_values, tasks_events, collect_Some by done.
  rewrite bind_emits. simpl. by rewrite app_nil_r.
Qed.

End Parallel.

(** ** Chunk partition *)

(** C8: for every text (of a size a [std::string] can have) the chunked
    branch cuts the text into [numThreads] = 4 slices: slice [i] is the
    range [[start i, end i)] of the text, the ranges start at 0, each one
    begins where the previous one ends and the last one ends at the end of
    the text, so that the slices joined in index order are the text and
    their lengths add up to its length; every slice but the last has
    [size / numThreads] characters and the last has the remainder on top. *)
Theorem chunks_partition (cipherText : text) :
  size cipherText < size_t_modulus ->
  chunks cipherText = Some <$> (slice cipherText <$> task_indices)
  /\ length (chunks cipherText) = Z.to_nat numThreads
  /\ start cipherText 0 = 0
  /\ (forall i, 0 <= i < numThreads - 1 ->
        end_ cipherText i = start cipherText (i + 1))
  /\ end_ cipherText (numThreads - 1) = size cipherText
  /\ concat (slice cipherText <$> task_indices) = cipherText
  /\ sum_list (length <$> (slice cipherText <$> task_indices))
     = length cipherText
  /\ (forall i, 0 <= i < numThreads - 1 ->
        size (slice cipherText i) = size cipherText / numThreads)
  /\ size (slice cipherText (numThreads - 1))
     = size cipherText / numThreads + size cipherText mod numThreads.
Proof.
  intros Hfits.
  pose proof (concat_slices cipherText Hfits) as Hcat.
  split_and!.
  - by apply chunks_slices.
  - unfold chunks. by rewrite length_fmap.
  - by apply start_0.
  - intros i Hi. by apply end_start_succ.
  - by apply end_last.
  - done.
  - rewrite <- length_concat. by rewrite Hcat.
  - intros i Hi. rewrite slice_size by (done || lia). case_decide; [lia|done].
  - rewrite slice_size by (done || unfold numThreads; lia).
    case_decide; [done|lia].
Qed.

Lemma chunks_partition_witness :
  let cipherText := list_ascii_of_string "HELLOWORLD" in
  size cipherText < size_t_modulus
  /\ chunks cipherText = Some <$> (slice cipherText <$> task_indices).
Proof.
  intros cipherText. split; [reflexivity|].
  apply (chunks_partition cipherText). reflexivity.
Defined.

(** C10: for every text length, each task's bounds satisfy
    [start <= end <= size], so that every [substr] call is in range and no
    task throws: the chunked branch always runs to its end with a value.
    A text shorter than the worker count gives three empty chunks followed
    by the whole text. *)
Theorem chunk_extraction_in_range (cipherText : text) :
  size cipherText < size_t_modulus ->
  (forall i, i ∈ task_indices ->
     0 <= start cipherText i <= end_ cipherText i
     /\ end_ cipherText i <= size cipherText
     /\ chunk cipherText i = Some (slice cipherText i))
  /\ Forall is_Some (chunks cipherText)
  /\ (forall Cipher (ops : CipherOps Cipher) settings ciphers cipher,
        exists out,
          result (parallel settings ciphers cipher cipherText) = Val out)
  /\ (size cipherText < numThreads ->
      chunks cipherText = [Some []; Some []; Some []; Some cipherText]).
Proof.
  intros Hfits. split; [|split; [|split]].
  - intros i Hi%elem_of_task_indices.
    pose proof (start_le_end cipherText Hfits i Hi).
    split; [lia|]. split; [lia|]. by apply chunk_in_range.
  - rewrite chunks_slices by done. apply Forall_fmap, Forall_forall.
    intros c _. by eexists.
  - intros Cipher ops settings ciphers cipher.
    rewrite parallel_eq by done. by eexists.
  - intros Hshort. rewrite chunks_slices by done.
    by rewrite short_text_slices.
Qed.

Lemma chunk_extraction_in_range_witness :
  let cipherText := list_ascii_of_string "ABC" in
  size cipherText < size_t_modulus
  /\ chunks cipherText = [Some []; Some []; Some []; Some cipherText].
Proof.
  intros cipherText. split; [reflexivity|].
  apply (chunk_extraction_in_range cipherText); reflexivity.
Defined.


(** ** Chunking a character-wise cipher *)

Section CharacterWise.
Context {Cipher : Type} {ops : CipherOps Cipher}.
Variable settings : ProgramSettings.

(** A cipher that maps every character on its own, the same way at every
    position, does not see the chunk boundaries. *)
Lemma parallel_character_wise (f : ascii -> ascii) (ciphers : list Cipher)
    (cipher : Cipher) (cipherText : text) :
  size cipherText < size_t_modulus ->
  let front := default cipher (head ciphers) in
  (forall s, applyCipher front s (cipherMode settings) = f <$> s) ->
  result (parallel settings ciphers cipher cipherText)
  = Val (applyCipher front cipherText (cipherMode settings)).
Proof.
  intros Hfits front Hf. rewrite parallel_eq by done. cbn [result]. f_equal.
  fold front. unfold task_value.
  rewrite (Hf cipherText).
  transitivity (f <$> concat (slice cipherText <$> task_indices));
    [|by rewrite concat_slices].
  generalize task_indices. intros l. induction l as [|i l IH]; csimpl.
  - done.
  - by rewrite fmap_app, IH, Hf.
Qed.

End CharacterWise.

(** C1: for every text (of a size a [std::string] can have), every Caesar
    shift and both modes, over any alphabet, a stage run through the
    chunked branch with the Caesar cipher in front hands back exactly what
    one call of the Caesar transform on the whole text gives.  This covers
    the lengths 0, 1, 3 and 10000. *)
Theorem caesar_chunked_eq_sequential (alphabet : text) (k : Z)
    (settings : ProgramSettings) (rest : list SpecCiphers.Cipher)
    (cipher : SpecCiphers.Cipher) (cipherText : text) :
  size cipherText < size_t_modulus ->
  result (parallel (ops := SpecCiphers.cipher_ops alphabet) settings
            (SpecCiphers.CaesarCipher k :: rest) cipher cipherText)
  = Val (SpecCiphers.caesar alphabet k cipherText (cipherMode settings)).
Proof.
  intros Hfits.
  apply (parallel_character_wise (ops := SpecCiphers.cipher_ops alphabet)
           settings (SpecCiphers.shift_char alphabet (cipherMode settings) k)
           (SpecCiphers.CaesarCipher k :: rest) cipher cipherText Hfits).
  reflexivity.
Qed.

Lemma caesar_chunked_eq_sequential_witness :
  let cipherText := list_ascii_of_string "HELLO" in
  let settings := mkSettings false false [] [] [Caesar]
                    [list_ascii_of_string "3"] Encrypt in
  size cipherText < size_t_modulus
  /\ result (parallel (ops := SpecCiphers.cipher_ops SpecCiphers.letters)
               settings [SpecCiphers.CaesarCipher 3]
               (SpecCiphers.CaesarCipher 3) cipherText)
     = Val (list_ascii_of_string "KHOOR").
Proof.
  intros cipherText settings. split; [reflexivity|].
  rewrite (caesar_chunked_eq_sequential SpecCiphers.letters 3 settings []
             (SpecCiphers.CaesarCipher 3) cipherText) by reflexivity.
  reflexivity.
Defined.

(** The lengths the specification singles out: 0, 1, 3 and 10000. *)
Example caesar_chunked_lengths :
  let settings := mkSettings false false [] [] [Caesar]
                    [list_ascii_of_string "3"] Encrypt in
  let run s :=
    result (parallel (ops := SpecCiphers.cipher_ops SpecCiphers.letters)
              settings [SpecCiphers.CaesarCipher 3]
              (SpecCiphers.CaesarCipher 3) s) in
  run [] = Val []
  /\ run (list_ascii_of_string "Z") = Val (list_ascii_of_string "C")
  /\ run (list_ascii_of_string "XYZ") = Val (list_ascii_of_string "ABC")
  /\ run (replicate (Z.to_nat 10000) "Y"%char)
     = Val (replicate (Z.to_nat 10000) "B"%char).
Proof. by vm_compute. Qed.

(** ** Completion order *)

Section ScheduleFacts.
Context {Cipher : Type} {ops : CipherOps Cipher}.
Variable settings : ProgramSettings.
Variable front : Cipher.

Lemma run_tasks_buffer st sched :
  buffer (run_tasks settings front st sched) = buffer st.
Proof.
  revert st. induction sched as [|j sched IH]; intros st; simpl; [done|].
  by rewrite IH.
Qed.

Lemma run_tasks_cons st j sched :
  run_tasks settings front st (j :: sched)
  = run_tasks settings front (complete settings front st j) sched.
Proof. reflexivity. Qed.

(** Each future holds the value of its own task once that task has
    completed, whatever completed before or after it. *)
Lemma run_tasks_lookup sched st (i : nat) :
  futures (run_tasks settings front st sched) !! i =
    if decide (i ∈ sched)
    then (if decide (i < length (futures st))%nat
          then Some (Some (task settings front (buffer st) (Z.of_nat i)))
          else None)
    else futures st !! i.
Proof.
  revert st. induction sched as [|j sched IH]; intros st.
  - destruct (decide (i ∈ [])) as [Hin%elem_of_nil|]; done.
  - rewrite run_tasks_cons, IH. cbn [complete futures buffer]. rewrite length_insert.
    destruct (decide (i ∈ sched)) as [Hin|Hin].
    + rewrite (decide_True (P := i ∈ j :: sched)) by (by right). done.
    + destruct (decide (i = j)) as [->|Hne].
      * rewrite (decide_True (P := j ∈ j :: sched)) by (by left).
        case_decide as Hlt.
        -- by rewrite list_lookup_insert_eq.
        -- rewrite list_insert_ge by lia. apply lookup_ge_None. lia.
      * rewrite (decide_False (P := i ∈ j :: sched))
          by (intros [?|?]%elem_of_cons; done).
        by rewrite list_lookup_insert_ne.
Qed.

(** When every task has completed once, the vector of futures holds the
    task results by index: the completion order has left no mark. *)
Lemma run_tasks_complete cipherText sched :
  sched ≡ₚ seq 0 (Z.to_nat numThreads) ->
  futures (run_tasks settings front (launch cipherText) sched)
  = Some <$> (task settings front cipherText <$> task_indices).
Proof.
  intros Hperm. apply list_eq. intros i.
  rewrite run_tasks_lookup. cbn [launch futures buffer].
  rewrite length_replicate, !list_lookup_fmap.
  destruct (decide (i < Z.to_nat numThreads)%nat) as [Hlt|Hge].
  - rewrite (decide_True (P := i ∈ sched))
      by (rewrite Hperm, elem_of_seq; lia).
    unfold task_indices. rewrite lookup_seqZ_lt by lia. done.
  - rewrite (decide_False (P := i ∈ sched))
      by (rewrite Hperm, elem_of_seq; lia).
    unfold task_indices. rewrite lookup_seqZ_ge by lia.
    cbn [fmap option_fmap option_map]. apply lookup_replicate_None. lia.
Qed.

End ScheduleFacts.

(** C9: once every task has completed, in whatever order, the chunked
    branch hands back the task results joined in the order of their chunk
    indices; two runs of a stage on the same text, cipher and mode give
    the same stage output whatever their completion orders. *)
Theorem parallel_deterministic {Cipher : Type} {ops : CipherOps Cipher}
    (settings : ProgramSettings) (ciphers : list Cipher) (cipher : Cipher)
    (cipherText : text) (sched1 sched2 : list nat) :
  size cipherText < size_t_modulus ->
  sched1 ≡ₚ seq 0 (Z.to_nat numThreads) ->
  sched2 ≡ₚ seq 0 (Z.to_nat numThreads) ->
  let front := default cipher (head ciphers) in
  parallel_scheduled settings ciphers cipher cipherText sched1
  = Some (mret (concat (task_value settings front cipherText <$> task_indices)))
  /\ parallel_scheduled settings ciphers cipher cipherText sched1
     = parallel_scheduled settings ciphers cipher cipherText sched2
  /\ (result <$> parallel_scheduled settings ciphers cipher cipherText sched1)
     = Some (result (parallel settings ciphers cipher cipherText)).
Proof.
  intros Hfits H1 H2 front.
  assert (Hany : forall sched, sched ≡ₚ seq 0 (Z.to_nat numThreads) ->
    parallel_scheduled settings ciphers cipher cipherText sched
    = Some (mret (concat (task_value settings front cipherText
                            <$> task_indices)))).
  { intros sched Hperm. unfold parallel_scheduled, wait_all. fold front.
    rewrite run_tasks_complete by done.
    rewrite mapM_fmap_Some by done. cbn [mbind option_bind].
    by rewrite tasks_values, collect_Some. }
  split_and!.
  - by apply Hany.
  - by rewrite !Hany.
  - rewrite Hany, parallel_eq by done. done.
Qed.

Lemma parallel_deterministic_witness :
  let cipherText := list_ascii_of_string "HELLOWORLD" in
  let settings := mkSettings false false [] [] [Caesar]
                    [list_ascii_of_string "3"] Encrypt in
  let c := SpecCiphers.CaesarCipher 3 in
  parallel_scheduled settings [c] c cipherText [3; 1; 0; 2]%nat
  = parallel_scheduled settings [c] c cipherText [0; 1; 2; 3]%nat.
Proof.
  intros cipherText settings c.
  apply (parallel_deterministic settings [c] c cipherText
           [3; 1; 0; 2]%nat [0; 1; 2; 3]%nat).
  - reflexivity.
  - by apply (bool_decide_unpack _).
  - reflexivity.
Defined.

(** ** The wait loop *)

Lemma while_not_ready_ready fuel completes now :
  while_not_ready (S fuel) completes ready now = Some now.
Proof. reflexivity. Qed.

(** A task that never completes keeps the loop polling. *)
Lemma while_not_ready_never fuel now :
  while_not_ready fuel None timeout now = None.
Proof.
  revert now. induction fuel as [|fuel IH]; intros now; simpl; [done|].
  apply IH.
Qed.

Lemma wait_future_never fuel now : wait_future fuel None now = None.
Proof. unfold wait_future. simpl. apply while_not_ready_never. Qed.

Lemma wait_futures_never fuel tasks now :
  None ∈ tasks -> wait_futures fuel tasks now = None.
Proof.
  revert now. induction tasks as [|c tasks IH]; intros now Hin.
  - by apply elem_of_nil in Hin.
  - apply elem_of_cons in Hin as [<-|Hin]; simpl.
    + by rewrite wait_future_never.
    + destruct (wait_future fuel c now) as [now'|]; simpl; [|done].
      by apply IH.
Qed.

(** A task that completes at [t] ends the polling at [t]. *)
Lemma while_not_ready_completes fuel t now :
  now < t -> t - now <= 2 * Z.of_nat fuel ->
  while_not_ready (S fuel) (Some t) timeout now = Some t.
Proof.
  revert now. induction fuel as [|fuel IH]; intros now Hlt Hfuel; [lia|].
  cbn [while_not_ready]. rewrite decide_False by done.
  unfold wait_for. case_decide as Hready.
  - rewrite decide_True by done. f_equal. lia.
  - apply IH; lia.
Qed.

Lemma wait_future_completes fuel t now :
  (1 + Z.to_nat (t - now) <= fuel)%nat ->
  wait_future fuel (Some t) now = Some (Z.max now t).
Proof.
  intros Hfuel. unfold wait_future, wait_for. case_decide as Hready.
  - destruct fuel as [|fuel]; [lia|]. apply while_not_ready_ready.
  - destruct fuel as [|fuel]; [lia|].
    rewrite while_not_ready_completes by lia. f_equal. lia.
Qed.

Lemma wait_futures_complete (ts : list Z) now :
  exists fuel0, forall fuel, (fuel0 <= fuel)%nat ->
    wait_futures fuel (Some <$> ts) now = Some (foldl Z.max now ts).
Proof.
  revert now. induction ts as [|t ts IH]; intros now.
  - exists 0%nat. done.
  - destruct (IH (Z.max now t)) as [fuel0 Hrest].
    exists (Nat.max fuel0 (1 + Z.to_nat (t - now))). intros fuel Hfuel.
    cbn [fmap list_fmap wait_futures foldl].
    rewrite wait_future_completes by lia. cbn [mbind option_bind].
    apply Hrest. lia.
Qed.

(** C7, as the code has it: the wait loop has no time budget and raises
    nothing.  It polls the futures in index order, each one until it is
    ready.  When every task completes, the loop ends, at the latest
    completion time or at once when all tasks had completed before; when
    some task never completes, the loop never ends, however many times
    it polls. *)
Theorem wait_polls_until_ready (now : Z) :
  (forall ts : list Z, exists fuel0, forall fuel, (fuel0 <= fuel)%nat ->
     wait_futures fuel (Some <$> ts) now = Some (foldl Z.max now ts))
  /\ (forall tasks, None ∈ tasks ->
        forall fuel, wait_futures fuel tasks now = None).
Proof.
  split.
  - intros ts. apply wait_futures_complete.
  - intros tasks Hin fuel. by apply wait_futures_never.
Qed.

Lemma wait_polls_until_ready_witness :
  None ∈ [Some 0; None; Some 5; Some 3]
  /\ wait_futures 1000 [Some 0; None; Some 5; Some 3] 0 = None.
Proof.
  split; [by apply (bool_decide_unpack _)|].
  apply (wait_polls_until_ready 0). by apply (bool_decide_unpack _).
Defined.

(** C7 as stated fails: with a task that never completes, the wait loop
    is still polling after any number of rounds; it neither returns nor
    raises. *)
Lemma wait_on_hung_task_never_ends :
  ~ exists fuel, is_Some (wait_futures fuel [Some 0; None; Some 0; Some 0] 0).
Proof.
  intros [fuel [now Hnow]].
  rewrite wait_futures_never in Hnow; [done|]. by apply (bool_decide_unpack _).
Qed.

Example wait_four_tasks :
  wait_futures 10 [Some 0; Some 7; Some 2; Some 4] 0 = Some 7.
Proof. reflexivity. Qed.

(** ** Construction failures *)

Section BindFacts.
Context {Cipher : Type}.

Lemma trace_bind_stop {A B} (m : M Cipher A) (k : A -> M Cipher B) :
  (forall a, result m <> Val a) -> trace (m ≫= k) = trace m.
Proof.
  intros Hstop. unfold mbind, M_bind.
  destruct (result m) as [a| | |] eqn:Hr; try done. by destruct (Hstop a).
Qed.

Lemma trace_bind_Forall {A B} (P : Event Cipher -> Prop)
    (m : M Cipher A) (k : A -> M Cipher B) :
  Forall P (trace m) ->
  (forall a, result m = Val a -> Forall P (trace (k a))) ->
  Forall P (trace (m ≫= k)).
Proof.
  intros Hm Hk. unfold mbind, M_bind.
  destruct (result m) as [a| | |] eqn:Hr; cbn [trace]; try done.
  apply Forall_app. split; [done|]. by apply Hk.
Qed.

End BindFacts.

Section ConstructFacts.
Context {Cipher : Type} {ops : CipherOps Cipher}.
Variable makeCipher : CipherType -> text -> MakeResult Cipher.
Variable env : Env.
Variable settings : ProgramSettings.

Lemma construct_cons t types i acc :
  construct makeCipher settings (t :: types) i acc =
    match cipherKey settings !! i with
    | None => undefined
    | Some key =>
        emit (EvMake t key);;
        match makeCipher t key with
        | Threw e =>
            emit (EvCerr ("[error] Invalid Key: " +:+ what e));;
            return_ 1
        | NullPtr =>
            emit (EvCerr "[error] problem constructing requested cipher");;
            return_ 1
        | Made c => construct makeCipher settings types (S i) (acc ++ [c])
        end
    end.
Proof. reflexivity. Qed.

Lemma construct_quiet types i acc :
  Forall quiet (trace (construct makeCipher settings types i acc)).
Proof.
  revert i acc. induction types as [|t types IH]; intros i acc.
  - constructor.
  - rewrite construct_cons.
    destruct (cipherKey settings !! i) as [key|]; [|constructor].
    rewrite bind_emit. cbn [trace].
    constructor; [done|].
    destruct (makeCipher t key); [| |apply IH];
      rewrite bind_emit; cbn [trace]; repeat constructor.
Qed.

(** The loop stops at the first key the factory rejects; a key that would
    be rejected further on makes no difference to that. *)
Lemma construct_Threw types i acc j t key e :
  types !! j = Some t ->
  cipherKey settings !! (i + j)%nat = Some key ->
  makeCipher t key = Threw e ->
  result (construct makeCipher settings types i acc) = Return 1.
Proof.
  revert i acc j. induction types as [|t0 types IH]; intros i acc j Ht Hkey He.
  - done.
  - destruct j as [|j]; simpl in Ht.
    + injection Ht as ->. rewrite Nat.add_0_r in Hkey.
      rewrite construct_cons, Hkey, bind_emit, He. reflexivity.
    + assert (is_Some (cipherKey settings !! i)) as [key0 Hkey0].
      { apply lookup_lt_is_Some. apply lookup_lt_Some in Hkey. lia. }
      rewrite construct_cons, Hkey0, bind_emit. cbn [result].
      destruct (makeCipher t0 key0); [done|done|].
      apply (IH (S i) _ j); [done| |done].
      by replace (S i + j)%nat with (i + S j)%nat by lia.
Qed.

(** The loop runs to its end only when every cipher was constructed. *)
Lemma construct_Val types i acc ciphers :
  result (construct makeCipher settings types i acc) = Val ciphers ->
  forall j t, types !! j = Some t ->
    exists key c, cipherKey settings !! (i + j)%nat = Some key
                  /\ makeCipher t key = Made c.
Proof.
  revert i acc. induction types as [|t0 types IH]; intros i acc Hres j t Ht.
  - done.
  - rewrite construct_cons in Hres.
    destruct (cipherKey settings !! i) as [key0|] eqn:Hkey0; [|done].
    rewrite bind_emit in Hres. cbn [result] in Hres.
    destruct (makeCipher t0 key0) as [e| |c] eqn:Hmake; [done|done|].
    destruct j as [|j]; simpl in Ht.
    + injection Ht as <-. exists key0, c. by rewrite Nat.add_0_r.
    + destruct (IH _ _ Hres j t Ht) as (key & c' & Hkey & Hc).
      exists key, c'. split; [|done].
      by replace (i + S j)%nat with (S i + j)%nat by lia.
Qed.

(** When the loop leaves [main], it does so with status 1, right after an
    error message. *)
Lemma construct_Return types i acc code :
  result (construct makeCipher settings types i acc) = Return code ->
  code = 1
  /\ exists msg,
       last (trace (construct makeCipher settings types i acc))
       = Some (EvCerr msg).
Proof.
  revert i acc. induction types as [|t0 types IH]; intros i acc Hres.
  - done.
  - rewrite construct_cons in *.
    destruct (cipherKey settings !! i) as [key0|]; [|done].
    rewrite bind_emit in *. cbn [result trace] in *.
    destruct (makeCipher t0 key0) as [e| |c].
    + injection Hres as <-. split; [done|]. by eexists.
    + injection Hres as <-. split; [done|]. by eexists.
    + destruct (IH _ _ Hres) as [-> [msg Hlast]]. split; [done|].
      exists msg. rewrite last_cons, Hlast. done.
Qed.

Lemma read_input_quiet : Forall quiet (trace (read_input (Cipher := Cipher) env settings)).
Proof.
  unfold read_input. case_decide; [constructor|].
  destruct (ifstream env (inputFile settings)); repeat constructor.
Qed.

Lemma read_input_Return code :
  result (read_input (Cipher := Cipher) env settings) = Return code ->
  code = 1
  /\ exists msg, last (trace (read_input (Cipher := Cipher) env settings)) = Some (EvCerr msg).
Proof.
  unfold read_input. case_decide; [done|].
  destruct (ifstream env (inputFile settings)); [done|].
  intros [= <-]. split; [done|]. by eexists.
Qed.

Lemma read_input_result :
  (exists s, read_input (Cipher := Cipher) env settings = mret s)
  \/ (exists code, result (read_input (Cipher := Cipher) env settings) = Return code).
Proof.
  unfold read_input. case_decide; [left; by eexists|].
  destruct (ifstream env (inputFile settings)); [left|right]; by eexists.
Qed.

End ConstructFacts.

Section AbortFacts.
Context {Cipher : Type} {ops : CipherOps Cipher}.
Variable makeCipher : CipherType -> text -> MakeResult Cipher.
Variable env : Env.
Variable settings : ProgramSettings.

Lemma no_apply_not_Exists (tr : list (Event Cipher)) :
  Forall (fun ev => is_apply ev = false) tr ->
  ~ Exists (fun ev => is_apply ev = true) tr.
Proof.
  intros Hq Hex. apply Exists_exists in Hex as (ev & Hin & Hev).
  rewrite Forall_forall in Hq. specialize (Hq ev Hin). congruence.
Qed.

Lemma quiet_not_apply (tr : list (Event Cipher)) :
  Forall quiet tr -> ~ Exists (fun ev => is_apply ev = true) tr.
Proof.
  intros Hq. apply no_apply_not_Exists.
  eapply Forall_impl; [exact Hq|]. by intros ev [? _].
Qed.

(** A construction that does not run to its end ends [process]. *)
Lemma process_stops cipherText :
  (forall cs, result (construct makeCipher settings (cipherType settings) 0 [])
              <> Val cs) ->
  trace (process makeCipher env settings cipherText)
  = trace (construct makeCipher settings (cipherType settings) 0 []).
Proof. intros Hstop. unfold process. by apply trace_bind_stop. Qed.

Lemma process_Return cipherText code :
  result (construct makeCipher settings (cipherType settings) 0 [])
  = Return code ->
  process makeCipher env settings cipherText
  = mkM (trace (construct makeCipher settings (cipherType settings) 0 []))
        (Return code).
Proof. intros Hres. unfold process. by apply bind_Return. Qed.

Lemma main_cases :
  helpRequested settings = false -> versionRequested settings = false ->
  (exists s, main makeCipher env settings = process makeCipher env settings s)
  \/ (main makeCipher env settings
      = mkM (trace (read_input (Cipher := Cipher) env settings)) (Return 1)
      /\ exists code,
           result (read_input (Cipher := Cipher) env settings) = Return code).
Proof.
  intros Hhelp Hversion. unfold main. rewrite Hhelp, Hversion.
  destruct (read_input_result (Cipher := Cipher) env settings)
    as [[s Hs]|[code Hcode]].
  - left. exists s. by rewrite Hs, bind_mret.
  - right. pose proof (read_input_Return env settings code Hcode) as [-> _].
    split; [by apply bind_Return|by eexists].
Qed.

End AbortFacts.

(** C6: the factory is called only in the construction loop, before any
    transform; a transform is a total function to text and has no way to
    raise.  When the factory rejects one of the keys of the run, [main]
    returns 1 right after an error message, and the run has called no
    [applyCipher] and written no text.  The other way round, a run that
    calls [applyCipher] at all has constructed every cipher of the
    pipeline. *)
Theorem invalid_key_aborts_run {Cipher : Type} {ops : CipherOps Cipher}
    (makeCipher : CipherType -> text -> MakeResult Cipher) (env : Env)
    (settings : ProgramSettings) :
  let run := main makeCipher env settings in
  (helpRequested settings = false -> versionRequested settings = false ->
   (exists i t key e,
      cipherType settings !! i = Some t
      /\ cipherKey settings !! i = Some key
      /\ makeCipher t key = Threw e) ->
   result run = Return 1
   /\ (exists msg, last (trace run) = Some (EvCerr msg))
   /\ Forall quiet (trace run))
  /\ (Exists (fun ev => is_apply ev = true) (trace run) ->
      forall i t, cipherType settings !! i = Some t ->
        exists key c, cipherKey settings !! i = Some key
                      /\ makeCipher t key = Made c).
Proof.
  intros run. split.
  - intros Hhelp Hversion (i & t & key & e & Ht & Hkey & He).
    pose proof (construct_Threw makeCipher settings (cipherType settings)
                  0 [] i t key e Ht Hkey He) as Hres.
    subst run.
    destruct (main_cases makeCipher env settings Hhelp Hversion)
      as [[s ->]|[-> [code Hcode]]].
    + rewrite (process_Return _ _ _ _ _ Hres). cbn [result trace].
      split; [done|]. split.
      * by apply (construct_Return makeCipher settings _ _ _ 1).
      * apply construct_quiet.
    + cbn [result trace]. split; [done|]. split.
      * by apply (read_input_Return env settings code).
      * apply read_input_quiet.
  - intros Hex i t Ht. subst run. unfold main in Hex.
    destruct (helpRequested settings).
    { apply no_apply_not_Exists in Hex; [done|]. by repeat constructor. }
    destruct (versionRequested settings).
    { apply no_apply_not_Exists in Hex; [done|]. by repeat constructor. }
    destruct (read_input_result (Cipher := Cipher) env settings)
      as [[s Hs]|[code Hcode]].
    + rewrite Hs, bind_mret in Hex.
      destruct (result (construct makeCipher settings (cipherType settings)
                          0 [])) as [cs| | |] eqn:Hres.
      * by apply (construct_Val makeCipher settings _ 0 [] cs Hres i t).
      * rewrite process_stops in Hex by (rewrite Hres; done).
        apply quiet_not_apply in Hex; [done|]. apply construct_quiet.
      * rewrite process_stops in Hex by (rewrite Hres; done).
        apply quiet_not_apply in Hex; [done|]. apply construct_quiet.
      * rewrite process_stops in Hex by (rewrite Hres; done).
        apply quiet_not_apply in Hex; [done|]. apply construct_quiet.
    + rewrite trace_bind_stop in Hex by (rewrite Hcode; done).
      apply quiet_not_apply in Hex; [done|]. apply read_input_quiet.
Qed.

Lemma invalid_key_aborts_run_witness :
  let env := mkEnv (fun _ => None) (list_ascii_of_string "HELLOWORLD")
                   (fun _ => true) in
  let settings := mkSettings false false [] [] [Caesar; Vigenere]
                    [list_ascii_of_string "3"; []] Encrypt in
  let run := main (SpecCiphers.makeCipher SpecCiphers.letters) env settings in
  result run = Return 1
  /\ (exists msg, last (trace run) = Some (EvCerr msg))
  /\ Forall quiet (trace run).
Proof.
  intros env settings run.
  apply (invalid_key_aborts_run
           (SpecCiphers.makeCipher SpecCiphers.letters) env settings);
    [reflexivity|reflexivity|].
  exists 1%nat, Vigenere, [],
    (mkInvalidKey "Vigenere key is empty or not alphabetic").
  split_and!; reflexivity.
Defined.

Example invalid_key_run :
  let env := mkEnv (fun _ => None) (list_ascii_of_string "HELLOWORLD")
                   (fun _ => true) in
  let settings := mkSettings false false [] [] [Caesar; Vigenere]
                    [list_ascii_of_string "3"; []] Encrypt in
  main (SpecCiphers.makeCipher SpecCiphers.letters) env settings
  = mkM [EvMake Caesar (list_ascii_of_string "3");
         EvMake Vigenere [];
         EvCerr "[error] Invalid Key: Vigenere key is empty or not alphabetic"]
        (Return 1).
Proof. reflexivity. Qed.

(** ** Which branch a stage takes, and which cipher it applies *)

Section StageFacts.
Context {Cipher : Type} {ops : CipherOps Cipher}.
Variable settings : ProgramSettings.

Lemma run_ciphers_cons ciphers cipher todo cipherText :
  run_ciphers settings ciphers (cipher :: todo) cipherText =
    (if caesar_requested settings
     then parallel settings ciphers cipher cipherText
     else direct settings cipher cipherText)
    ≫= run_ciphers settings ciphers todo.
Proof. reflexivity. Qed.

(** The calls of a chunked pass all go to [front]. *)
Lemma parallel_trace ciphers cipher cipherText :
  Forall (fun ev => exists i c,
            ev = EvAsync i (default cipher (head ciphers)) c
                         (cipherMode settings))
         (trace (parallel settings ciphers cipher cipherText)).
Proof.
  unfold parallel. rewrite bind_emits. cbn [trace].
  apply Forall_app. split.
  - generalize task_indices. intros l. induction l as [|i l IH]; csimpl.
    + constructor.
    + apply Forall_app. split; [|done]. unfold task_event.
      destruct (chunk cipherText i); repeat constructor. by eexists _, _.
  - generalize (task settings (default cipher (head ciphers)) cipherText
                  <$> task_indices) (@nil ascii).
    intros l. induction l as [|[r|] l IH]; intros acc; simpl;
      [constructor|apply IH|constructor].
Qed.

(** With a Caesar anywhere among the requested kinds, every stage, of
    whatever kind, goes through the chunked branch, and every call made
    there goes to the first cipher of the vector. *)
Lemma run_ciphers_caesar_requested ciphers first todo cipherText :
  caesar_requested settings = true ->
  head ciphers = Some first ->
  Forall (fun ev => exists i c,
            ev = EvAsync i first c (cipherMode settings))
         (trace (run_ciphers settings ciphers todo cipherText)).
Proof.
  intros Hreq Hfirst. revert cipherText.
  induction todo as [|cipher todo IH]; intros cipherText.
  - constructor.
  - rewrite run_ciphers_cons, Hreq. apply trace_bind_Forall.
    + pose proof (parallel_trace ciphers cipher cipherText) as Htr.
      by rewrite Hfirst in Htr.
    + intros cipherText' _. apply IH.
Qed.

(** Without a Caesar among the requested kinds, the stages are direct
    calls, one per cipher, each on the output of the one before, in the
    order of the vector. *)
Lemma run_ciphers_direct ciphers todo cipherText :
  caesar_requested settings = false ->
  run_ciphers settings ciphers todo cipherText
  = mkM (direct_calls settings todo cipherText)
        (Val (foldl (fun s c => applyCipher c s (cipherMode settings))
                    cipherText todo)).
Proof.
  intros Hreq. revert cipherText.
  induction todo as [|cipher todo IH]; intros cipherText.
  - reflexivity.
  - rewrite run_ciphers_cons, Hreq.
    rewrite (bind_Val _ _ (applyCipher cipher cipherText (cipherMode settings)))
      by done.
    rewrite IH. reflexivity.
Qed.

End StageFacts.

Section PipelineFacts.
Context {Cipher : Type} {ops : CipherOps Cipher}.
Variable makeCipher : CipherType -> text -> MakeResult Cipher.
Variable env : Env.
Variable settings : ProgramSettings.

(** The vector the construction loop builds holds, at each index, the
    cipher made from the kind and the key at that index. *)
Lemma construct_Val_ciphers types i acc ciphers :
  result (construct makeCipher settings types i acc) = Val ciphers ->
  exists made,
    ciphers = acc ++ made
    /\ length made = length types
    /\ forall j t, types !! j = Some t ->
         exists key c, cipherKey settings !! (i + j)%nat = Some key
                       /\ makeCipher t key = Made c
                       /\ made !! j = Some c.
Proof.
  revert i acc. induction types as [|t0 types IH]; intros i acc Hres.
  - injection Hres as <-. exists []. by rewrite app_nil_r.
  - rewrite construct_cons in Hres.
    destruct (cipherKey settings !! i) as [key0|] eqn:Hkey0; [|done].
    rewrite bind_emit in Hres. cbn [result] in Hres.
    destruct (makeCipher t0 key0) as [e| |c0] eqn:Hmake; [done|done|].
    destruct (IH _ _ Hres) as (made & -> & Hlen & Hmade).
    exists (c0 :: made). split; [by rewrite <- app_assoc|].
    split; [simpl; by rewrite Hlen|].
    intros [|j] t Ht; simpl in Ht.
    + injection Ht as <-. exists key0, c0. by rewrite Nat.add_0_r.
    + destruct (Hmade j t Ht) as (key & c & Hkey & Hc & Hj).
      exists key, c. split_and!; [|done|done].
      by replace (i + S j)%nat with (S i + j)%nat by lia.
Qed.

(** A pipeline without a Caesar: the transforms are applied to the running
    text in list order when encrypting and in reversed list order when
    decrypting. *)
Lemma process_without_caesar cipherText ciphers :
  caesar_requested settings = false ->
  outputFile settings = [] ->
  result (construct makeCipher settings (cipherType settings) 0 [])
  = Val ciphers ->
  process makeCipher env settings cipherText
  = mkM (trace (construct makeCipher settings (cipherType settings) 0 [])
         ++ direct_calls settings (staged settings ciphers) cipherText
         ++ [EvCout (foldl (fun s c => applyCipher c s (cipherMode settings))
                           cipherText (staged settings ciphers) ++ nl)])
        (Return 0).
Proof.
  intros Hreq Hout Hres. unfold process.
  rewrite (bind_Val _ _ ciphers) by done. cbn zeta.
  rewrite run_ciphers_direct by done.
  rewrite (bind_Val _ _ (foldl (fun s c => applyCipher c s (cipherMode settings))
                               cipherText (staged settings ciphers)))
    by done.
  cbn [trace result]. unfold write_output. rewrite decide_True by done.
  reflexivity.
Qed.

End PipelineFacts.

(** ** Runs of pipelines with a Caesar stage *)

Local Abbreviation txt := list_ascii_of_string.

(** The terminal used in the runs below: the text on standard input. *)
Local Abbreviation console input :=
  (mkEnv (fun _ => None) (txt input) (fun _ => true)).

(** C2 on the pipeline Caesar "3", Vigenere "KEY", encrypting HELLOWORLD:
    the test of lines 132-133 looks at the kinds of the whole pipeline, so
    the Vigenere stage goes through the chunked branch as well (and its
    tasks call the Caesar cipher); no direct call is made.  The direct
    call of the Vigenere transform on the output of the Caesar stage
    would give ULMYVXBYMQ. *)
Theorem vigenere_stage_runs_chunked :
  let settings := mkSettings false false [] [] [Caesar; Vigenere]
                    [txt "3"; txt "KEY"] Encrypt in
  let caesar3 := SpecCiphers.CaesarCipher 3 in
  let vigenereKEY := SpecCiphers.VigenereCipher [10; 4; 24] in
  main (SpecCiphers.makeCipher SpecCiphers.letters)
       (console "HELLOWORLD") settings
  = mkM [EvMake Caesar (txt "3"); EvMake Vigenere (txt "KEY");
         EvAsync 0 caesar3 (txt "HE") Encrypt;
         EvAsync 1 caesar3 (txt "LL") Encrypt;
         EvAsync 2 caesar3 (txt "OW") Encrypt;
         EvAsync 3 caesar3 (txt "ORLD") Encrypt;
         EvAsync 0 caesar3 (txt "KH") Encrypt;
         EvAsync 1 caesar3 (txt "OO") Encrypt;
         EvAsync 2 caesar3 (txt "RZ") Encrypt;
         EvAsync 3 caesar3 (txt "RUOG") Encrypt;
         EvCout (txt "NKRRUCUXRJ" ++ nl)]
        (Return 0)
  /\ applyCipher vigenereKEY
       (applyCipher caesar3 (txt "HELLOWORLD") Encrypt) Encrypt
     = txt "ULMYVXBYMQ".
Proof. split; reflexivity. Qed.

(** C3 on the pipeline Caesar "1", Caesar "2", encrypting HELLOWORLD: the
    tasks of the second stage call [ciphers.front()], the cipher of the
    first stage (shift 1), where the stage being executed has shift 2.
    The output is the text shifted by 2; the two stages applied each with
    its own cipher shift it by 3. *)
Theorem second_stage_applies_first_cipher :
  let settings := mkSettings false false [] [] [Caesar; Caesar]
                    [txt "1"; txt "2"] Encrypt in
  let caesar1 := SpecCiphers.CaesarCipher 1 in
  let caesar2 := SpecCiphers.CaesarCipher 2 in
  main (SpecCiphers.makeCipher SpecCiphers.letters)
       (console "HELLOWORLD") settings
  = mkM [EvMake Caesar (txt "1"); EvMake Caesar (txt "2");
         EvAsync 0 caesar1 (txt "HE") Encrypt;
         EvAsync 1 caesar1 (txt "LL") Encrypt;
         EvAsync 2 caesar1 (txt "OW") Encrypt;
         EvAsync 3 caesar1 (txt "ORLD") Encrypt;
         EvAsync 0 caesar1 (txt "IF") Encrypt;
         EvAsync 1 caesar1 (txt "MM") Encrypt;
         EvAsync 2 caesar1 (txt "PX") Encrypt;
         EvAsync 3 caesar1 (txt "PSME") Encrypt;
         EvCout (txt "JGNNQYQTNF" ++ nl)]
        (Return 0)
  /\ applyCipher caesar2
       (applyCipher caesar1 (txt "HELLOWORLD") Encrypt) Encrypt
     = txt "KHOORZRUOG".
Proof. split; reflexivity. Qed.

(** C4 on the pipeline Vigenere "KEY", Caesar "3" and the text HELLOWORLD.
    Encrypting, the run applies the Vigenere cipher twice, chunk by chunk,
    and never the Caesar cipher; the two transforms in list order give
    ULMYVXBYMQ.  Decrypting, it applies the Caesar cipher twice and never
    the Vigenere cipher; the two transforms in reversed list order give
    UXKYHVBKKQ. *)
Theorem pipeline_with_caesar_out_of_order :
  let pipeline mode := mkSettings false false [] [] [Vigenere; Caesar]
                         [txt "KEY"; txt "3"] mode in
  let run mode := main (SpecCiphers.makeCipher SpecCiphers.letters)
                       (console "HELLOWORLD") (pipeline mode) in
  let caesar3 := SpecCiphers.CaesarCipher 3 in
  let vigenereKEY := SpecCiphers.VigenereCipher [10; 4; 24] in
  run Encrypt
  = mkM [EvMake Vigenere (txt "KEY"); EvMake Caesar (txt "3");
         EvAsync 0 vigenereKEY (txt "HE") Encrypt;
         EvAsync 1 vigenereKEY (txt "LL") Encrypt;
         EvAsync 2 vigenereKEY (txt "OW") Encrypt;
         EvAsync 3 vigenereKEY (txt "ORLD") Encrypt;
         EvAsync 0 vigenereKEY (txt "RI") Encrypt;
         EvAsync 1 vigenereKEY (txt "VP") Encrypt;
         EvAsync 2 vigenereKEY (txt "YA") Encrypt;
         EvAsync 3 vigenereKEY (txt "YVJN") Encrypt;
         EvCout (txt "BMFTIEIZHX" ++ nl)]
        (Return 0)
  /\ applyCipher caesar3
       (applyCipher vigenereKEY (txt "HELLOWORLD") Encrypt) Encrypt
     = txt "ULMYVXBYMQ"
  /\ run Decrypt
     = mkM [EvMake Vigenere (txt "KEY"); EvMake Caesar (txt "3");
            EvAsync 0 caesar3 (txt "HE") Decrypt;
            EvAsync 1 caesar3 (txt "LL") Decrypt;
            EvAsync 2 caesar3 (txt "OW") Decrypt;
            EvAsync 3 caesar3 (txt "ORLD") Decrypt;
            EvAsync 0 caesar3 (txt "EB") Decrypt;
            EvAsync 1 caesar3 (txt "II") Decrypt;
            EvAsync 2 caesar3 (txt "LT") Decrypt;
            EvAsync 3 caesar3 (txt "LOIA") Decrypt;
            EvCout (txt "BYFFIQILFX" ++ nl)]
           (Return 0)
  /\ applyCipher vigenereKEY
       (applyCipher caesar3 (txt "HELLOWORLD") Decrypt) Decrypt
     = txt "UXKYHVBKKQ".
Proof. split_and!; reflexivity. Qed.

(** The same two kinds of stage without a Caesar in the pipeline: direct
    calls in list order, reversed when decrypting. *)
Example pipeline_without_caesar :
  let pipeline mode := mkSettings false false [] [] [Vigenere; Playfair]
                         [txt "KEY"; txt "PLAYFAIR"] mode in
  let run mode := main (SpecCiphers.makeCipher SpecCiphers.letters)
                       (console "HELLOWORLD") (pipeline mode) in
  let vigenereKEY := SpecCiphers.VigenereCipher [10; 4; 24] in
  let playfair := SpecCiphers.PlayfairCipher
                    (txt "PLAYFIRBCDEGHKMNOQSTUVWXZ") in
  trace (run Encrypt)
  = [EvMake Vigenere (txt "KEY"); EvMake Playfair (txt "PLAYFAIR");
     EvDirect vigenereKEY (txt "HELLOWORLD") Encrypt;
     EvDirect playfair (txt "RIJVSUYVJN") Encrypt;
     EvCout (txt "BRJVNXLXJN" ++ nl)]
  /\ trace (run Decrypt)
     = [EvMake Vigenere (txt "KEY"); EvMake Playfair (txt "PLAYFAIR");
        EvDirect playfair (txt "HELLOWORLD") Decrypt;
        EvDirect vigenereKEY (txt "GMYVVGVQLVCZ") Decrypt;
        EvCout (txt "WIALRILMNLYB" ++ nl)].
Proof. split; reflexivity. Qed.

(** * The ciphers: encrypting, then decrypting *)

Import SpecCiphers.

(** ** Positions in an alphabet *)

Section Position.
Variable l : text.

Lemma position_lookup c p : position l c = Some p -> l !! p = Some c.
Proof.
  revert p. induction l as [|x l' IH]; intros p; simpl; [done|].
  case_decide as Hx.
  - intros [= <-]. by subst.
  - destruct (position l' c) as [p'|]; simpl; [|done].
    intros [= <-]. by apply IH.
Qed.

Lemma position_elem_of c : c ∈ l -> is_Some (position l c).
Proof.
  induction l as [|x l' IH]; intros Hin; simpl.
  - by apply elem_of_nil in Hin.
  - case_decide as Hx; [by eexists|].
    apply elem_of_cons in Hin as [->|Hin]; [done|].
    destruct (IH Hin) as [p ->]. by eexists.
Qed.

Lemma position_NoDup c p : NoDup l -> l !! p = Some c -> position l c = Some p.
Proof.
  intros Hnd Hp.
  assert (is_Some (position l c)) as [p' Hp'].
  { apply position_elem_of. by eapply list_elem_of_lookup_2. }
  pose proof (position_lookup c p' Hp') as Hl.
  by rewrite (NoDup_lookup l p p' c Hnd Hp Hl).
Qed.

End Position.

(** ** Caesar and Vigenere *)

Section ShiftRoundTrip.
Variable alphabet : text.
Hypothesis alphabet_NoDup : NoDup alphabet.

Lemma shift_position_inverse k p :
  0 <= p < asize alphabet ->
  0 <= shift_position alphabet Encrypt k p < asize alphabet
  /\ shift_position alphabet Decrypt k (shift_position alphabet Encrypt k p)
     = p.
Proof.
  intros Hp. unfold shift_position.
  pose proof (Z.mod_pos_bound (p + k) (asize alphabet) ltac:(lia)) as Hq.
  split; [done|].
  rewrite (Z.mod_eq (p + k)) by lia.
  replace (p + k - asize alphabet * ((p + k) / asize alphabet) - k
           + asize alphabet)
    with (p + (1 - (p + k) / asize alphabet) * asize alphabet) by lia.
  rewrite Z.mod_add by lia. apply Z.mod_small. lia.
Qed.

(** Shifting a character of the alphabet forth and back. *)
Lemma shift_char_inverse k c :
  c ∈ alphabet ->
  shift_char alphabet Decrypt k (shift_char alphabet Encrypt k c) = c.
Proof.
  intros Hin. destruct (position_elem_of alphabet c Hin) as [p Hp].
  pose proof (position_lookup alphabet c p Hp) as Hc.
  pose proof (lookup_lt_Some _ _ _ Hc) as Hlt.
  assert (Hrange : 0 <= Z.of_nat p < asize alphabet)
    by (unfold asize, size; lia).
  destruct (shift_position_inverse k (Z.of_nat p) Hrange) as [Hq Hback].
  set (q := shift_position alphabet Encrypt k (Z.of_nat p)) in *.
  assert (is_Some (alphabet !! Z.to_nat q)) as [c' Hc'].
  { apply lookup_lt_is_Some. unfold asize, size in Hq. lia. }
  assert (Henc : shift_char alphabet Encrypt k c = c').
  { unfold shift_char. rewrite Hp. fold q. by rewrite Hc'. }
  rewrite Henc. unfold shift_char.
  rewrite (position_NoDup alphabet c' (Z.to_nat q) alphabet_NoDup Hc').
  rewrite Z2Nat.id by lia. rewrite Hback, Nat2Z.id, Hc. done.
Qed.


Lemma imap_inverse (f g : nat -> ascii -> ascii) s :
  (forall i c, c ∈ s -> g i (f i c) = c) -> imap g (imap f s) = s.
Proof.
  revert f g. induction s as [|c s IH]; intros f g Hgf; [done|].
  rewrite !imap_cons. f_equal.
  - apply Hgf. by left.
  - apply IH. intros i c' Hc'. apply Hgf. by right.
Qed.

Lemma vigenere_round_trip key s :
  Forall (fun c => c ∈ alphabet) s ->
  vigenere alphabet key (vigenere alphabet key s Encrypt) Decrypt = s.
Proof.
  intros Hs. unfold vigenere.
  apply imap_inverse. intros i c Hc.
  apply shift_char_inverse. rewrite Forall_forall in Hs. by apply Hs.
Qed.

End ShiftRoundTrip.

(** ** The Playfair grid *)

Lemma elem_of_dedup seen l x : x ∈ dedup seen l <-> x ∈ l /\ x ∉ seen.
Proof.
  revert seen. induction l as [|c l IH]; intros seen; simpl.
  - rewrite elem_of_nil. tauto.
  - case_decide as Hc.
    + rewrite IH, elem_of_cons. intuition (subst; done).
    + rewrite !elem_of_cons, IH, not_elem_of_cons.
      destruct (decide (x = c)); intuition (subst; done).
Qed.

Lemma NoDup_dedup seen l : NoDup (dedup seen l).
Proof.
  revert seen. induction l as [|c l IH]; intros seen; simpl.
  - constructor.
  - case_decide as Hc; [apply IH|].
    constructor; [|apply IH]. rewrite elem_of_dedup, not_elem_of_cons.
    tauto.
Qed.

Lemma NoDup_playfair_letters : NoDup playfair_letters.
Proof. by apply (bool_decide_unpack _). Qed.

Lemma NoDup_letters : NoDup letters.
Proof. by apply (bool_decide_unpack _). Qed.

Lemma NoDup_alphanumeric : NoDup alphanumeric.
Proof. by apply (bool_decide_unpack _). Qed.

Lemma merge_letters : Forall (fun c => merge c ∈ playfair_letters) letters.
Proof. by apply (bool_decide_unpack _). Qed.

Lemma key_letters_grid key x : x ∈ key_letters key -> x ∈ playfair_letters.
Proof.
  unfold key_letters. intros (c & -> & Hc)%list_elem_of_fmap.
  apply list_elem_of_filter in Hc as [Hc _].
  pose proof merge_letters as Hm. rewrite Forall_forall in Hm. by apply Hm.
Qed.

(** Whatever the key, the grid holds each of the 25 letters once. *)
Lemma playfair_grid_valid key :
  NoDup (playfair_grid key)
  /\ length (playfair_grid key) = 25%nat
  /\ forall x, x ∈ playfair_grid key <-> x ∈ playfair_letters.
Proof.
  assert (Helem : forall x, x ∈ playfair_grid key <-> x ∈ playfair_letters).
  { intros x. unfold playfair_grid. rewrite elem_of_dedup, elem_of_app.
    pose proof (key_letters_grid key x). rewrite elem_of_nil. tauto. }
  pose proof (NoDup_dedup [] (key_letters key ++ playfair_letters)) as Hnd.
  split; [done|]. split; [|done].
  change 25%nat with (length playfair_letters).
  apply Permutation_length, NoDup_Permutation;
    [done|apply NoDup_playfair_letters|done].
Qed.

(** ** The digraph rules *)

(** On two different cells of the grid, the rule for encrypting gives two
    different cells of the grid, and the rule for decrypting takes them
    back.  (625 pairs of indices, checked one by one.) *)
Lemma pair_rule_table :
  Forall (fun i => Forall (fun j =>
    i <> j ->
    (0 <= (pair_rule Encrypt i j).1 < 25
     /\ 0 <= (pair_rule Encrypt i j).2 < 25)
    /\ (pair_rule Encrypt i j).1 <> (pair_rule Encrypt i j).2
    /\ pair_rule Decrypt (pair_rule Encrypt i j).1 (pair_rule Encrypt i j).2
       = (i, j)) (seqZ 0 25)) (seqZ 0 25).
Proof. apply (bool_decide_unpack _). by vm_compute. Qed.

Lemma pair_rule_inverse i j :
  0 <= i < 25 -> 0 <= j < 25 -> i <> j ->
  (0 <= (pair_rule Encrypt i j).1 < 25
   /\ 0 <= (pair_rule Encrypt i j).2 < 25)
  /\ (pair_rule Encrypt i j).1 <> (pair_rule Encrypt i j).2
  /\ pair_rule Decrypt (pair_rule Encrypt i j).1 (pair_rule Encrypt i j).2
     = (i, j).
Proof.
  intros Hi Hj. pose proof pair_rule_table as Htable.
  rewrite Forall_forall in Htable.
  specialize (Htable i ltac:(apply elem_of_seqZ; lia)).
  rewrite Forall_forall in Htable.
  apply (Htable j). apply elem_of_seqZ. lia.
Qed.

Section PlayfairRoundTrip.
Variable grid : text.
Hypothesis grid_NoDup : NoDup grid.
Hypothesis grid_length : length grid = 25%nat.

(** A digraph of two different grid letters is encrypted to a digraph of
    two different grid letters, which decrypts to the first one. *)
Lemma playfair_pair_inverse a b :
  a ∈ grid -> b ∈ grid -> a <> b ->
  (playfair_pair grid Encrypt (a, b)).1 ∈ grid
  /\ (playfair_pair grid Encrypt (a, b)).2 ∈ grid
  /\ (playfair_pair grid Encrypt (a, b)).1
     <> (playfair_pair grid Encrypt (a, b)).2
  /\ playfair_pair grid Decrypt (playfair_pair grid Encrypt (a, b)) = (a, b).
Proof.
  intros Ha Hb Hab.
  destruct (position_elem_of grid a Ha) as [i Hi].
  destruct (position_elem_of grid b Hb) as [j Hj].
  pose proof (position_lookup grid a i Hi) as Hla.
  pose proof (position_lookup grid b j Hj) as Hlb.
  pose proof (lookup_lt_Some _ _ _ Hla) as Hilt.
  pose proof (lookup_lt_Some _ _ _ Hlb) as Hjlt.
  assert (Hij : Z.of_nat i <> Z.of_nat j).
  { intros Heq%Nat2Z.inj. subst j. congruence. }
  destruct (pair_rule_inverse (Z.of_nat i) (Z.of_nat j))
    as ([Hq1 Hq2] & Hq12 & Hback); [lia|lia|done|].
  set (q := pair_rule Encrypt (Z.of_nat i) (Z.of_nat j)) in *.
  assert (is_Some (grid !! Z.to_nat q.1)) as [a' Ha']
    by (apply lookup_lt_is_Some; lia).
  assert (is_Some (grid !! Z.to_nat q.2)) as [b' Hb']
    by (apply lookup_lt_is_Some; lia).
  assert (Henc : playfair_pair grid Encrypt (a, b) = (a', b')).
  { unfold playfair_pair. cbn [fst snd]. rewrite Hi, Hj. fold q.
    unfold cell. by rewrite Ha', Hb'. }
  rewrite Henc. cbn [fst snd]. split_and!.
  - by eapply list_elem_of_lookup_2.
  - by eapply list_elem_of_lookup_2.
  - intros <-. apply Hq12.
    pose proof (NoDup_lookup grid _ _ a' grid_NoDup Ha' Hb'). lia.
  - unfold playfair_pair. cbn [fst snd].
    rewrite (position_NoDup grid a' _ grid_NoDup Ha').
    rewrite (position_NoDup grid b' _ grid_NoDup Hb').
    rewrite !Z2Nat.id by lia. rewrite Hback. cbn [fst snd].
    unfold cell. by rewrite !Nat2Z.id, Hla, Hlb.
Qed.

(** The same, for a list of digraphs. *)
Lemma playfair_pairs_inverse (ps : list (ascii * ascii)) :
  Forall (fun p => p.1 ∈ grid /\ p.2 ∈ grid /\ p.1 <> p.2) ps ->
  Forall (fun p => p.1 <> p.2) (playfair_pair grid Encrypt <$> ps)
  /\ playfair_pair grid Decrypt <$> (playfair_pair grid Encrypt <$> ps) = ps.
Proof.
  induction 1 as [|[a b] ps (Ha & Hb & Hab) _ [IH1 IH2]]; csimpl; [done|].
  cbn [fst snd] in *.
  destruct (playfair_pair_inverse a b Ha Hb Hab) as (_ & _ & Hne & Hback).
  split; [by constructor|]. by rewrite Hback, IH2.
Qed.

End PlayfairRoundTrip.

(** ** The digraph split *)

(** Induction on a text two characters at a time. *)
Lemma text_pair_ind (P : text -> Prop) :
  P [] -> (forall a, P [a]) -> (forall a b s, P s -> P (a :: b :: s)) ->
  forall s, P s.
Proof.
  intros Hnil Hone Hstep s.
  assert (H : P s /\ forall a, P (a :: s)); [|by destruct H].
  induction s as [|b s [IH1 IH2]]; [by split|].
  split; [apply IH2|]. intros a. by apply Hstep.
Qed.

(** The split leaves a text alone when it pairs up without fillers. *)
Lemma digraphs_well_paired (P : ascii -> Prop) s :
  well_paired s = true -> Forall P s ->
  digraphs s ≫= undigraph = s
  /\ Forall (fun p => P p.1 /\ P p.2 /\ p.1 <> p.2) (digraphs s).
Proof.
  induction s as [|a|a b s IH] using text_pair_ind; [done|done|].
  cbn [well_paired digraphs].
  intros [Hab%bool_decide_eq_true_1 Hs]%andb_prop HP.
  apply Forall_cons in HP as [Ha HP]. apply Forall_cons in HP as [Hb HP].
  destruct (IH Hs HP) as [IH1 IH2].
  rewrite decide_False by done. split; [|by constructor].
  change (a :: b :: (digraphs s ≫= undigraph) = a :: b :: s).
  by rewrite IH1.
Qed.

(** Digraphs of different letters, written out and split again. *)
Lemma digraphs_undigraph (ps : list (ascii * ascii)) :
  Forall (fun p => p.1 <> p.2) ps -> digraphs (ps ≫= undigraph) = ps.
Proof.
  induction 1 as [|[a b] ps Hab _ IH]; csimpl; [done|].
  cbn [fst snd] in *. rewrite decide_False by done. by rewrite IH.
Qed.

(** Playfair on a text of grid letters that pairs up without fillers. *)
Lemma playfair_round_trip key s :
  Forall (fun c => c ∈ playfair_letters) s -> well_paired s = true ->
  playfair (playfair_grid key) (playfair (playfair_grid key) s Encrypt) Decrypt
  = s.
Proof.
  intros Hs Hwp.
  destruct (playfair_grid_valid key) as (Hnd & Hlen & Helem).
  destruct (digraphs_well_paired (fun c => c ∈ playfair_grid key) s Hwp)
    as [Hflat Hpairs].
  { eapply Forall_impl; [exact Hs|]. intros c Hc. by apply Helem. }
  destruct (playfair_pairs_inverse (playfair_grid key) Hnd Hlen
              (digraphs s) Hpairs) as [Hne Hback].
  unfold playfair. by rewrite digraphs_undigraph, Hback.
Qed.

Section PlayfairAnyText.
Variable grid : text.
Hypothesis grid_NoDup : NoDup grid.
Hypothesis grid_length : length grid = 25%nat.



End PlayfairAnyText.







(** ** Round trip *)




(** A text of odd length comes back one filler longer. *)
Example playfair_odd_length :
  let c := PlayfairCipher (playfair_grid []) in
  apply letters c (apply letters c (txt "A") Encrypt) Decrypt = txt "AX".
Proof. reflexivity. Qed.

(** A digraph with a J, which is not in the grid, goes through both ways
    unchanged. *)
Example playfair_text_with_J :
  let c := PlayfairCipher (txt "PLAYFIRBCDEGHKMNOQSTUVWXZ") in
  apply letters c (txt "JUMP") Encrypt = txt "JUEF"
  /\ apply letters c (txt "JUEF") Decrypt = txt "JUMP".
Proof. split; reflexivity. Qed.

(** The vectors of the specification. *)
Example caesar_hello :
  caesar letters 3 (txt "HELLO") Encrypt = txt "KHOOR"
  /\ caesar letters 3 (txt "KHOOR") Decrypt = txt "HELLO".
Proof. split; reflexivity. Qed.

Example vigenere_helloworld :
  vigenere_key letters (txt "KEY") = Some [10; 4; 24]
  /\ vigenere letters [10; 4; 24] (txt "HELLOWORLD") Encrypt
     = txt "RIJVSUYVJN".
Proof. split; reflexivity. Qed.

Example playfair_balloon_digraphs :
  digraphs (txt "BALLOON")
  = [("B", "A"); ("L", "X"); ("L", "O"); ("O", "N")]%char.
Proof. reflexivity. Qed.

Example invalid_keys :
  makeCipher letters Vigenere [] =
    Threw (mkInvalidKey "Vigenere key is empty or not alphabetic")
  /\ makeCipher letters Caesar (txt "26") =
       Threw (mkInvalidKey "Caesar key is not a shift in range")
  /\ makeCipher alphanumeric Caesar (txt "26") = Made (CaesarCipher 26).
Proof. split_and!; reflexivity. Qed.

(** ** A run with one Caesar cipher *)

(** From standard input to standard output, a pipeline made of one Caesar
    cipher prints the Caesar transform of the whole input. *)
Lemma single_caesar_run (alphabet : text) (env : Env)
    (settings : ProgramSettings) (key : text) (k : Z) :
  helpRequested settings = false -> versionRequested settings = false ->
  inputFile settings = [] -> outputFile settings = [] ->
  cipherType settings = [Caesar] -> cipherKey settings = [key] ->
  caesar_key alphabet key = Some k ->
  size (cin env) < size_t_modulus ->
  let run := main (ops := cipher_ops alphabet) (makeCipher alphabet)
               env settings in
  result run = Return 0
  /\ last (trace run)
     = Some (EvCout (caesar alphabet k (cin env) (cipherMode settings) ++ nl)).
Proof.
  intros Hhelp Hversion Hin Hout Htypes Hkeys Hkey Hfits run. subst run.
  unfold main. rewrite Hhelp, Hversion.
  unfold read_input. rewrite Hin. destruct (decide (@nil ascii = [])) as [_|]; [|done]. rewrite bind_mret.
  assert (Hmake : makeCipher alphabet Caesar key = Made (CaesarCipher k)).
  { unfold makeCipher. by rewrite Hkey. }
  set (c := CaesarCipher k) in *.
  unfold process. rewrite Htypes, construct_cons, Hkeys.
  cbn [lookup list_lookup]. rewrite bind_emit, Hmake. cbn [construct app].
  rewrite (bind_Val _ _ [c]) by done. cbn zeta.
  assert (Hstaged : staged settings [c] = [c]).
  { unfold staged. by case_decide. }
  rewrite Hstaged, run_ciphers_cons.
  assert (Hreq : caesar_requested settings = true).
  { unfold caesar_requested. rewrite Htypes. done. }
  rewrite Hreq.
  pose proof (parallel_character_wise (ops := cipher_ops alphabet) settings
                (shift_char alphabet (cipherMode settings) k) [c] c (cin env)
                Hfits (fun s => eq_refl)) as Hpar.
  rewrite (bind_Val _ _ _ Hpar). cbn [run_ciphers].
  erewrite bind_Val by reflexivity.
  unfold write_output. rewrite Hout. rewrite decide_True by done.
  rewrite bind_emit. cbn [trace result return_].
  split; [done|].
  rewrite !last_app. done.
Qed.

(** * The whole of [main] *)

(** ** How a run ends *)

Section Accounted.
Context {Cipher : Type} {ops : CipherOps Cipher}.

Lemma accounted_bind {A B} (m : M Cipher A) (k : A -> M Cipher B) :
  accounted m -> (forall a, result m = Val a -> accounted (k a)) ->
  accounted (m ≫= k).
Proof.
  intros Hm Hk. unfold mbind, M_bind.
  destruct (result m) as [a|c| |] eqn:Hr; intros code Hcode;
    cbn [result trace] in *; try done.
  - destruct (Hk a eq_refl code Hcode) as [[-> (e & Hl & He)]|[-> (msg & Hl)]].
    + left. split; [done|]. exists e. by rewrite last_app, Hl.
    + right. split; [done|]. exists msg. by rewrite last_app, Hl.
  - injection Hcode as <-. by apply Hm.
Qed.

Lemma accounted_no_Return {A} (m : M Cipher A) :
  (forall code, result m <> Return code) -> accounted m.
Proof. intros Hno code Hcode. by destruct (Hno code). Qed.

Lemma collect_result (futures : list (option text)) acc :
  trace (collect (Cipher := Cipher) futures acc) = []
  /\ ((exists out, result (collect (Cipher := Cipher) futures acc) = Val out)
      \/ result (collect (Cipher := Cipher) futures acc) = Uncaught).
Proof.
  revert acc. induction futures as [|[r|] futures IH]; intros acc; simpl.
  - split; [done|]. left. by eexists.
  - apply IH.
  - split; [done|]. by right.
Qed.

Variable settings : ProgramSettings.

(** A chunked pass hands back a text or lets the exception of a task
    escape; it never leaves [main] by itself. *)
Lemma parallel_result ciphers cipher cipherText :
  (exists out, result (parallel settings ciphers cipher cipherText) = Val out)
  \/ result (parallel settings ciphers cipher cipherText) = Uncaught.
Proof.
  unfold parallel. rewrite bind_emits. cbn [result].
  apply collect_result.
Qed.

Lemma run_ciphers_result ciphers todo cipherText :
  (exists out,
     result (run_ciphers settings ciphers todo cipherText) = Val out)
  \/ result (run_ciphers settings ciphers todo cipherText) = Uncaught.
Proof.
  revert cipherText. induction todo as [|cipher todo IH]; intros cipherText.
  - left. by eexists.
  - rewrite run_ciphers_cons.
    assert (Hstage :
      (exists out, result (if caesar_requested settings
                           then parallel settings ciphers cipher cipherText
                           else direct settings cipher cipherText) = Val out)
      \/ result (if caesar_requested settings
                 then parallel settings ciphers cipher cipherText
                 else direct settings cipher cipherText) = Uncaught).
    { destruct (caesar_requested settings);
        [apply parallel_result|left; by eexists]. }
    destruct Hstage as [[out Hout]|Hun].
    + rewrite (bind_Val _ _ out Hout). cbn [result]. apply IH.
    + right. unfold mbind, M_bind. by rewrite Hun.
Qed.

Variable makeCipher : CipherType -> text -> MakeResult Cipher.
Variable env : Env.

Lemma write_output_cases out :
  (outputFile settings = []
   /\ write_output (Cipher := Cipher) env settings out ≫= (fun _ => return_ 0)
      = mkM [EvCout (out ++ nl)] (Return (A := unit) 0))
  \/ (outputFile settings <> []
      /\ ofstream_good env (outputFile settings) = true
      /\ write_output (Cipher := Cipher) env settings out
           ≫= (fun _ => return_ 0)
         = mkM [EvFile (outputFile settings) (out ++ nl)]
               (Return (A := unit) 0))
  \/ (outputFile settings <> []
      /\ ofstream_good env (outputFile settings) = false
      /\ exists msg,
           write_output (Cipher := Cipher) env settings out
             ≫= (fun _ => return_ 0)
           = mkM [EvCerr msg] (Return (A := unit) 1)).
Proof.
  unfold write_output. case_decide as Hfile; [by left|].
  destruct (ofstream_good env (outputFile settings)) eqn:Hgood.
  - right. left. done.
  - right. right. split; [done|]. split; [done|]. by eexists.
Qed.

Lemma process_accounted cipherText :
  accounted (process makeCipher env settings cipherText).
Proof.
  unfold process. apply accounted_bind.
  - intros code Hcode.
    destruct (construct_Return makeCipher settings _ _ _ code Hcode)
      as [-> Hlast].
    by right.
  - intros ciphers _. cbn zeta. apply accounted_bind.
    + apply accounted_no_Return. intros code Hcode.
      destruct (run_ciphers_result (staged settings ciphers)
                  (staged settings ciphers) cipherText) as [[out Hout]|Hun];
        congruence.
    + intros out _.
      destruct (write_output_cases out)
        as [[_ ->]|[(_ & _ & ->)|(_ & _ & msg & ->)]];
        intros code [= <-]; [left|left|right]; (split; [done|]);
        by eexists.
Qed.

End Accounted.

(** ** The keys the construction loop reads *)

Section KeysFacts.
Context {Cipher : Type} {ops : CipherOps Cipher}.
Variable makeCipher : CipherType -> text -> MakeResult Cipher.

Lemma construct_not_Uncaught settings types i acc :
  result (construct makeCipher settings types i acc) <> Uncaught.
Proof.
  revert i acc. induction types as [|t types IH]; intros i acc; [done|].
  rewrite construct_cons.
  destruct (cipherKey settings !! i) as [key|]; [|done].
  rewrite bind_emit. cbn [result]. destruct (makeCipher t key); [done|done|].
  apply IH.
Qed.

(** With a key for every kind, the loop never reads past the keys. *)
Lemma construct_defined settings types i acc :
  (i + length types <= length (cipherKey settings))%nat ->
  result (construct makeCipher settings types i acc) <> Undefined.
Proof.
  revert i acc. induction types as [|t types IH]; intros i acc Hlen; [done|].
  rewrite construct_cons. simpl in Hlen.
  destruct (lookup_lt_is_Some_2 (cipherKey settings) i ltac:(lia))
    as [key Hkey].
  rewrite Hkey, bind_emit. cbn [result].
  destruct (makeCipher t key); [done|done|]. apply IH. lia.
Qed.

(** The loop reads, of the settings, the keys at the indices of the kinds
    and nothing else. *)
Lemma construct_ext settings1 settings2 types i acc :
  (forall j, (j < length types)%nat ->
     cipherKey settings1 !! (i + j)%nat = cipherKey settings2 !! (i + j)%nat) ->
  construct makeCipher settings1 types i acc
  = construct makeCipher settings2 types i acc.
Proof.
  revert i acc. induction types as [|t types IH]; intros i acc Hkeys; [done|].
  rewrite !construct_cons.
  pose proof (Hkeys 0%nat ltac:(simpl; lia)) as H0.
  rewrite Nat.add_0_r in H0. rewrite H0.
  destruct (cipherKey settings2 !! i) as [key|]; [|done].
  destruct (makeCipher t key); [done|done|].
  rewrite (IH (S i)); [done|]. intros j Hj.
  replace (S i + j)%nat with (i + S j)%nat by lia. apply Hkeys. simpl. lia.
Qed.

(** The factory calls of a construction that runs to its end or stops at
    a missing key: one per kind that has a key, in order. *)
Lemma construct_accepting settings types i acc :
  (forall j t key, types !! j = Some t ->
     cipherKey settings !! (i + j)%nat = Some key ->
     exists c, makeCipher t key = Made c) ->
  trace (construct makeCipher settings types i acc)
  = zip_with EvMake types (drop i (cipherKey settings))
  /\ ((length types <= length (drop i (cipherKey settings)))%nat ->
      exists ciphers,
        result (construct makeCipher settings types i acc) = Val ciphers)
  /\ ((length (drop i (cipherKey settings)) < length types)%nat ->
      result (construct makeCipher settings types i acc) = Undefined).
Proof.
  revert i acc. induction types as [|t types IH]; intros i acc Hacc.
  - split; [done|]. split; [intros _; by eexists|]. simpl. lia.
  - rewrite construct_cons.
    destruct (cipherKey settings !! i) as [key|] eqn:Hkey.
    + destruct (Hacc 0%nat t key eq_refl) as [c Hc];
        [by rewrite Nat.add_0_r|].
      rewrite bind_emit, Hc. cbn [trace result].
      rewrite (drop_S _ _ _ Hkey). cbn [zip_with length].
      destruct (IH (S i) (acc ++ [c])) as (Htr & Hval & Hund).
      { intros j t' key' Ht' Hkey'. apply (Hacc (S j) t' key' Ht').
        by replace (i + S j)%nat with (S i + j)%nat by lia. }
      rewrite Htr. split; [done|].
      split; [intros; apply Hval|intros; apply Hund]; lia.
    + apply lookup_ge_None in Hkey. rewrite drop_ge by done.
      split; [by destruct types|]. split; [simpl; lia|done].
Qed.

End KeysFacts.

(** ** A run, piece by piece *)

Section RunFacts.
Context {Cipher : Type} {ops : CipherOps Cipher}.
Variable makeCipher : CipherType -> text -> MakeResult Cipher.
Variable env : Env.
Variable settings : ProgramSettings.

Lemma main_accounted : accounted (main makeCipher env settings).
Proof.
  unfold main. destruct (helpRequested settings).
  { intros code [= <-]. left. split; [done|]. by eexists. }
  destruct (versionRequested settings).
  { intros code [= <-]. left. split; [done|]. by eexists. }
  apply accounted_bind.
  - intros code Hcode.
    destruct (read_input_Return env settings code Hcode) as [-> Hlast].
    by right.
  - intros cipherText _. apply process_accounted.
Qed.

Lemma main_process cipherText :
  helpRequested settings = false -> versionRequested settings = false ->
  read_input (Cipher := Cipher) env settings = mret cipherText ->
  main makeCipher env settings = process makeCipher env settings cipherText.
Proof.
  intros Hhelp Hversion Hread. unfold main.
  by rewrite Hhelp, Hversion, Hread, bind_mret.
Qed.

Lemma process_run cipherText ciphers out :
  result (construct makeCipher settings (cipherType settings) 0 [])
  = Val ciphers ->
  result (run_ciphers settings (staged settings ciphers)
            (staged settings ciphers) cipherText) = Val out ->
  process makeCipher env settings cipherText
  = mkM (trace (construct makeCipher settings (cipherType settings) 0 [])
         ++ trace (run_ciphers settings (staged settings ciphers)
                     (staged settings ciphers) cipherText)
         ++ trace (write_output (Cipher := Cipher) env settings out
                     ≫= fun _ => return_ (A := unit) 0))
        (result (write_output (Cipher := Cipher) env settings out
                   ≫= fun _ => return_ (A := unit) 0)).
Proof.
  intros Hciphers Hout. unfold process.
  rewrite (bind_Val _ _ ciphers Hciphers). cbn zeta.
  rewrite (bind_Val _ _ out Hout). reflexivity.
Qed.

Lemma quiet_one_branch (tr : list (Event Cipher)) :
  Forall quiet tr -> Forall (one_branch settings) tr.
Proof.
  intros Hq. eapply Forall_impl; [exact Hq|].
  intros [] [Happly _]; simpl in *; done.
Qed.

Lemma run_ciphers_one_branch ciphers todo cipherText :
  Forall (fun e => is_apply e = true /\ one_branch settings e)
         (trace (run_ciphers settings ciphers todo cipherText)).
Proof.
  revert cipherText. induction todo as [|cipher todo IH]; intros cipherText.
  - constructor.
  - rewrite run_ciphers_cons. apply trace_bind_Forall; [|intros; apply IH].
    destruct (caesar_requested settings) eqn:Hreq.
    + eapply Forall_impl; [apply parallel_trace|].
      intros e (i & c & ->). simpl. by rewrite Hreq.
    + unfold direct. rewrite bind_emit. repeat constructor; simpl; done.
Qed.

Lemma write_output_trace out :
  Forall (fun e => is_apply e = false)
         (trace (write_output (Cipher := Cipher) env settings out
                   ≫= fun _ => return_ (A := unit) 0)).
Proof.
  destruct (write_output_cases (Cipher := Cipher) settings env out)
    as [[_ ->]|[(_ & _ & ->)|(_ & _ & msg & ->)]]; by repeat constructor.
Qed.

End RunFacts.

(** X1: whatever the settings, the environment and the factory, when
    [main] returns, it returns 0 right after writing to standard output
    or to the output file, or 1 right after a message on standard error;
    it returns no other status. *)
Theorem main_exit_status {Cipher : Type} {ops : CipherOps Cipher}
    (makeCipher : CipherType -> text -> MakeResult Cipher) (env : Env)
    (settings : ProgramSettings) (code : Z) :
  let run := main makeCipher env settings in
  result run = Return code ->
  (code = 0 /\ exists e, last (trace run) = Some e /\ is_output e = true)
  \/ (code = 1 /\ exists msg, last (trace run) = Some (EvCerr msg)).
Proof. intros run. by apply main_accounted. Qed.

Lemma main_exit_status_witness :
  let env := mkEnv (fun _ => None) (list_ascii_of_string "HELLO")
                   (fun _ => false) in
  let settings := mkSettings false false []
                    (list_ascii_of_string "out.txt") [Vigenere]
                    [list_ascii_of_string "KEY"] Encrypt in
  let run := main (SpecCiphers.makeCipher SpecCiphers.letters) env settings in
  result run = Return 1
  /\ ((1 = 0 /\ exists e, last (trace run) = Some e /\ is_output e = true)
      \/ (1 = 1 /\ exists msg, last (trace run) = Some (EvCerr msg))).
Proof.
  intros env settings run. split; [reflexivity|].
  apply (main_exit_status (SpecCiphers.makeCipher SpecCiphers.letters)
           env settings 1).
  reflexivity.
Defined.

(** ** Ciphers that keep the length of the text *)

Section LengthFacts.
Context {Cipher : Type} {ops : CipherOps Cipher}.
Variable settings : ProgramSettings.
Variable good : Cipher -> Prop.
Hypothesis keeps_length :
  forall c s, good c ->
    length (applyCipher c s (cipherMode settings)) = length s.

Lemma task_values_length front cipherText (l : list Z) :
  good front ->
  length (concat (task_value settings front cipherText <$> l))
  = length (concat (slice cipherText <$> l)).
Proof.
  intros Hfront. induction l as [|i l IH]; csimpl; [done|].
  rewrite !length_app, IH. unfold task_value. by rewrite keeps_length.
Qed.

Lemma parallel_length ciphers cipher cipherText :
  Forall good ciphers -> good cipher ->
  size cipherText < size_t_modulus ->
  exists out,
    result (parallel settings ciphers cipher cipherText) = Val out
    /\ length out = length cipherText.
Proof.
  intros Hciphers Hcipher Hfits. rewrite parallel_eq by done.
  eexists. split; [done|].
  rewrite task_values_length, concat_slices; [done|done|].
  destruct Hciphers; simpl; done.
Qed.

Lemma run_ciphers_length ciphers todo cipherText :
  Forall good ciphers -> Forall good todo ->
  (caesar_requested settings = true -> size cipherText < size_t_modulus) ->
  exists out,
    result (run_ciphers settings ciphers todo cipherText) = Val out
    /\ length out = length cipherText.
Proof.
  intros Hciphers Htodo. revert cipherText.
  induction Htodo as [|cipher todo Hcipher Htodo IH]; intros cipherText Hfits.
  - by exists cipherText.
  - rewrite run_ciphers_cons.
    assert (Hstage : exists mid,
      result (if caesar_requested settings
              then parallel settings ciphers cipher cipherText
              else direct settings cipher cipherText) = Val mid
      /\ length mid = length cipherText).
    { destruct (caesar_requested settings).
      - by apply parallel_length, Hfits.
      - eexists. split; [reflexivity|]. by apply keeps_length. }
    destruct Hstage as (mid & Hmid & Hlen).
    rewrite (bind_Val _ _ mid Hmid). cbn [result].
    destruct (IH mid) as (out & Hout & Hlen').
    { unfold size in *. rewrite Hlen. exact Hfits. }
    exists out. split; [done|]. by rewrite Hlen', Hlen.
Qed.

End LengthFacts.

Section ReturnFacts.
Context {Cipher : Type} {ops : CipherOps Cipher}.
Variable makeCipher : CipherType -> text -> MakeResult Cipher.
Variable env : Env.
Variable settings : ProgramSettings.

Lemma read_input_cases :
  (inputFile settings = []
   /\ read_input (Cipher := Cipher) env settings = mret (cin env))
  \/ (exists s, inputFile settings <> []
        /\ ifstream env (inputFile settings) = Some s
        /\ read_input (Cipher := Cipher) env settings = mret s)
  \/ (inputFile settings <> []
      /\ ifstream env (inputFile settings) = None
      /\ exists msg, read_input (Cipher := Cipher) env settings
                     = mkM [EvCerr msg] (Return 1)).
Proof.
  unfold read_input. case_decide as Hfile; [by left|].
  destruct (ifstream env (inputFile settings)) as [s|].
  - right. left. by exists s.
  - right. right. split; [done|]. split; [done|]. by eexists.
Qed.

Lemma construct_made ciphers :
  result (construct makeCipher settings (cipherType settings) 0 [])
  = Val ciphers ->
  Forall (made_for_run makeCipher settings) ciphers.
Proof.
  intros Hres.
  destruct (construct_Val_ciphers makeCipher settings _ _ _ _ Hres)
    as (made & -> & Hlen & Hmade).
  apply Forall_lookup. intros j c Hc. simpl in Hc.
  assert (is_Some (cipherType settings !! j)) as [t Ht].
  { apply lookup_lt_is_Some. rewrite <- Hlen. by eapply lookup_lt_Some. }
  destruct (Hmade j t Ht) as (key & c' & _ & Hmake & Hc').
  exists t, key. split; [by eapply list_elem_of_lookup_2|]. congruence.
Qed.

Lemma staged_Forall (P : Cipher -> Prop) ciphers :
  Forall P ciphers -> Forall P (staged settings ciphers).
Proof. unfold staged. case_decide; [apply Forall_reverse|done]. Qed.

(** A run whose loop over the ciphers runs to its end returns 0 or 1. *)
Lemma process_returns cipherText :
  (length (cipherType settings) <= length (cipherKey settings))%nat ->
  (forall ciphers, Forall (made_for_run makeCipher settings) ciphers ->
   exists out,
     result (run_ciphers settings ciphers ciphers cipherText) = Val out) ->
  result (process makeCipher env settings cipherText) = Return 0
  \/ result (process makeCipher env settings cipherText) = Return 1.
Proof.
  intros Hkeys Hrun.
  destruct (result (construct makeCipher settings (cipherType settings) 0 []))
    as [ciphers|code| |] eqn:Hres.
  - destruct (Hrun (staged settings ciphers)) as [out Hout].
    { by apply staged_Forall, construct_made. }
    rewrite (process_run makeCipher env settings _ _ _ Hres Hout).
    cbn [result].
    destruct (write_output_cases (Cipher := Cipher) settings env out)
      as [[_ ->]|[(_ & _ & ->)|(_ & _ & msg & ->)]]; auto.
  - rewrite (process_Return makeCipher env settings _ _ Hres). cbn [result].
    destruct (construct_Return makeCipher settings _ _ _ _ Hres) as [-> _].
    by right.
  - by destruct (construct_not_Uncaught makeCipher settings _ _ _ Hres).
  - by destruct (construct_defined makeCipher settings _ 0%nat [] Hkeys Hres).
Qed.

End ReturnFacts.

(** X2: with a key for every kind, a run returns 0 or 1, it neither dies
    of an exception nor reads a vector out of bounds, when no Caesar is
    among the requested kinds, or when the ciphers the factory makes for
    the requested kinds keep the length of the text and the input is of a
    size a [std::string] can have. *)
Theorem main_returns_0_or_1 {Cipher : Type} {ops : CipherOps Cipher}
    (makeCipher : CipherType -> text -> MakeResult Cipher) (env : Env)
    (settings : ProgramSettings) :
  (length (cipherType settings) <= length (cipherKey settings))%nat ->
  Caesar ∉ cipherType settings
  \/ ((forall t key c s, t ∈ cipherType settings ->
         makeCipher t key = Made c ->
         length (applyCipher c s (cipherMode settings)) = length s)
      /\ size (cin env) < size_t_modulus
      /\ forall s, ifstream env (inputFile settings) = Some s ->
                   size s < size_t_modulus) ->
  result (main makeCipher env settings) = Return 0
  \/ result (main makeCipher env settings) = Return 1.
Proof.
  intros Hkeys Hcase. unfold main.
  destruct (helpRequested settings); [by left|].
  destruct (versionRequested settings); [by left|].
  assert (Hrun : forall cipherText,
    (cipherText = cin env \/ ifstream env (inputFile settings) = Some cipherText) ->
    forall ciphers, Forall (made_for_run makeCipher settings) ciphers ->
    exists out,
      result (run_ciphers settings ciphers ciphers cipherText) = Val out).
  { intros cipherText Hfrom ciphers Hmade.
    destruct Hcase as [Hno|(Hlen & Hcin & Hfile)].
    - rewrite run_ciphers_direct by (by apply bool_decide_eq_false_2).
      by eexists.
    - destruct (run_ciphers_length settings (made_for_run makeCipher settings))
        with (ciphers := ciphers) (todo := ciphers) (cipherText := cipherText)
        as (out & Hout & _); [|done|done| |by exists out].
      + intros c s (t & key & Ht & Hc). by eapply Hlen.
      + intros _. destruct Hfrom as [->|Hfrom]; [done|by apply Hfile]. }
  destruct (read_input_cases (Cipher := Cipher) env settings)
    as [[_ ->]|[(s & _ & Hs & ->)|(_ & _ & msg & ->)]].
  - rewrite bind_mret. apply process_returns; [done|]. apply Hrun. by left.
  - rewrite bind_mret. apply process_returns; [done|]. apply Hrun. by right.
  - by right.
Qed.

Lemma shift_ciphers_keep_length alphabet t key c s m :
  t ∈ [Caesar; Vigenere] ->
  SpecCiphers.makeCipher alphabet t key = Made c ->
  length (SpecCiphers.apply alphabet c s m) = length s.
Proof.
  intros Ht Hmake. unfold SpecCiphers.makeCipher in Hmake.
  destruct t.
  - destruct (SpecCiphers.caesar_key alphabet key); [|done].
    injection Hmake as <-. apply length_fmap.
  - exfalso. apply elem_of_cons in Ht as [?|Ht]; [done|].
    apply elem_of_cons in Ht as [?|Ht]; [done|]. by apply elem_of_nil in Ht.
  - destruct (SpecCiphers.vigenere_key alphabet key); [|done].
    injection Hmake as <-. apply length_imap.
Qed.

Lemma main_returns_0_or_1_witness :
  let env := mkEnv (fun _ => None) (list_ascii_of_string "HELLOWORLD")
                   (fun _ => true) in
  let settings := mkSettings false false [] [] [Caesar; Vigenere]
                    [list_ascii_of_string "3"; list_ascii_of_string "KEY"]
                    Decrypt in
  let run := main (SpecCiphers.makeCipher SpecCiphers.letters) env settings in
  result run = Return 0 \/ result run = Return 1.
Proof.
  intros env settings run.
  apply (main_returns_0_or_1 (SpecCiphers.makeCipher SpecCiphers.letters)
           env settings).
  - simpl. lia.
  - right. split; [|split; [reflexivity|done]].
    intros t key c s Ht Hmake.
    by apply (shift_ciphers_keep_length SpecCiphers.letters t key).
Defined.

(** X3: when the ciphers the factory makes for the requested kinds keep
    the length of the text, whatever a run writes as its result, on
    standard output or to the output file, is one character (the end of
    line) longer than the text it read; the chunking of the stages loses
    and adds nothing. *)
Theorem output_length {Cipher : Type} {ops : CipherOps Cipher}
    (makeCipher : CipherType -> text -> MakeResult Cipher) (env : Env)
    (settings : ProgramSettings) (cipherText : text) :
  helpRequested settings = false -> versionRequested settings = false ->
  read_input (Cipher := Cipher) env settings = mret cipherText ->
  size cipherText < size_t_modulus ->
  (forall t key c s, t ∈ cipherType settings ->
     makeCipher t key = Made c ->
     length (applyCipher c s (cipherMode settings)) = length s) ->
  forall e, e ∈ trace (main makeCipher env settings) ->
    match e with
    | EvCout s | EvFile _ s => length s = S (length cipherText)
    | _ => True
    end.
Proof.
  intros Hhelp Hversion Hread Hfits Hlen.
  rewrite (main_process makeCipher env settings cipherText) by done.
  set (P := fun e : Event Cipher =>
              match e with
              | EvCout s | EvFile _ s => length s = S (length cipherText)
              | _ => True
              end).
  assert (Hquiet : forall tr : list (Event Cipher), Forall quiet tr -> Forall P tr).
  { intros tr Hq. eapply Forall_impl; [exact Hq|].
    intros [] [_ Hout]; simpl in *; done. }
  apply Forall_forall.
  destruct (result (construct makeCipher settings (cipherType settings) 0 []))
    as [ciphers|code| |] eqn:Hres;
    [|rewrite process_stops by (rewrite Hres; done);
      apply Hquiet, construct_quiet ..].
  destruct (run_ciphers_length settings (made_for_run makeCipher settings))
    with (ciphers := staged settings ciphers) (todo := staged settings ciphers)
         (cipherText := cipherText) as (out & Hout & Hlenout); try done.
  { intros c s (t & key & Ht & Hc). by eapply Hlen. }
  { by apply staged_Forall, construct_made. }
  { by apply staged_Forall, construct_made. }
  rewrite (process_run makeCipher env settings _ _ _ Hres Hout). cbn [trace].
  apply Forall_app. split; [apply Hquiet, construct_quiet|].
  apply Forall_app. split.
  - eapply Forall_impl; [apply run_ciphers_one_branch|].
    intros [] [Happly _]; simpl in *; done.
  - destruct (write_output_cases (Cipher := Cipher) settings env out)
      as [[_ ->]|[(_ & _ & ->)|(_ & _ & msg & ->)]];
      repeat constructor; simpl; rewrite ?length_app; simpl; lia.
Qed.

Lemma output_length_witness :
  let env := mkEnv (fun _ => None) (list_ascii_of_string "HELLOWORLD")
                   (fun _ => true) in
  let settings := mkSettings false false [] [] [Caesar; Vigenere]
                    [list_ascii_of_string "3"; list_ascii_of_string "KEY"]
                    Encrypt in
  let run := main (SpecCiphers.makeCipher SpecCiphers.letters) env settings in
  EvCout (list_ascii_of_string "NKRRUCUXRJ" ++ nl) ∈ trace run
  /\ length (list_ascii_of_string "NKRRUCUXRJ" ++ nl) = 11%nat.
Proof.
  intros env settings run.
  assert (Hin : EvCout (list_ascii_of_string "NKRRUCUXRJ" ++ nl) ∈ trace run).
  { apply list_elem_of_In. vm_compute. tauto. }
  split; [exact Hin|].
  refine (output_length (SpecCiphers.makeCipher SpecCiphers.letters)
            env settings (list_ascii_of_string "HELLOWORLD")
            eq_refl eq_refl eq_refl eq_refl _ _ Hin).
  intros t key c s Ht Hmake.
  by apply (shift_ciphers_keep_length SpecCiphers.letters t key).
Defined.

(** ** Keys and kinds *)

Section MoreKeysFacts.
Context {Cipher : Type} {ops : CipherOps Cipher}.
Variable makeCipher : CipherType -> text -> MakeResult Cipher.

Lemma bind_ext {A B} (m : M Cipher A) (k1 k2 : A -> M Cipher B) :
  (forall a, k1 a = k2 a) -> m ≫= k1 = m ≫= k2.
Proof.
  intros Hk. unfold mbind, M_bind. destruct (result m); [|done..].
  by rewrite Hk.
Qed.

Lemma bind_Undefined {A B} (m : M Cipher A) (k : A -> M Cipher B) :
  result m = Undefined -> m ≫= k = mkM (trace m) Undefined.
Proof. intros H. unfold mbind, M_bind. by rewrite H. Qed.

(** The loop stops at the first kind whose cipher the factory does not
    hand back; it has called the factory for the kinds up to that one. *)
Lemma construct_stops settings types i acc j t key msg :
  types !! j = Some t ->
  cipherKey settings !! (i + j)%nat = Some key ->
  (forall j' t' key', (j' < j)%nat -> types !! j' = Some t' ->
     cipherKey settings !! (i + j')%nat = Some key' ->
     exists c, makeCipher t' key' = Made c) ->
  (exists e, makeCipher t key = Threw e
             /\ msg = "[error] Invalid Key: " +:+ what e)
  \/ (makeCipher t key = NullPtr
      /\ msg = "[error] problem constructing requested cipher"%string) ->
  construct makeCipher settings types i acc
  = mkM (zip_with EvMake (take (S j) types) (drop i (cipherKey settings))
         ++ [EvCerr msg])
        (Return 1).
Proof.
  revert i acc j. induction types as [|t0 types IH];
    intros i acc j Ht Hkey Hbefore Hfail; [done|].
  rewrite construct_cons. destruct j as [|j]; simpl in Ht.
  - injection Ht as ->. rewrite Nat.add_0_r in Hkey.
    rewrite Hkey, bind_emit, (drop_S _ _ _ Hkey).
    destruct Hfail as [(e & -> & ->)|[-> ->]]; reflexivity.
  - assert (is_Some (cipherKey settings !! i)) as [key0 Hkey0].
    { apply lookup_lt_is_Some. apply lookup_lt_Some in Hkey. lia. }
    destruct (Hbefore 0%nat t0 key0) as [c0 Hc0];
      [lia|done|by rewrite Nat.add_0_r|].
    rewrite Hkey0, bind_emit, Hc0, (drop_S _ _ _ Hkey0).
    rewrite (IH (S i) (acc ++ [c0]) j Ht); [reflexivity| | |done].
    + by replace (S i + j)%nat with (i + S j)%nat by lia.
    + intros j' t' key' Hj' Ht' Hkey'. apply (Hbefore (S j') t' key');
        [lia|done|]. by replace (i + S j')%nat with (S i + j')%nat by lia.
Qed.

(** The loop when the factory makes a cipher from every kind and key. *)
Lemma construct_Made settings types i acc made :
  Forall2 (fun tk c => makeCipher tk.1 tk.2 = Made c)
          (zip types (drop i (cipherKey settings))) made ->
  (length types <= length (drop i (cipherKey settings)))%nat ->
  construct makeCipher settings types i acc
  = mkM (zip_with EvMake types (drop i (cipherKey settings)))
        (Val (acc ++ made)).
Proof.
  revert i acc made. induction types as [|t types IH];
    intros i acc made Hmade Hlen.
  - apply Forall2_nil_inv_l in Hmade as ->. simpl. by rewrite app_nil_r.
  - rewrite construct_cons.
    destruct (cipherKey settings !! i) as [key|] eqn:Hkey.
    2:{ apply lookup_ge_None in Hkey. rewrite drop_ge in Hlen by done.
        simpl in Hlen. lia. }
    rewrite (drop_S _ _ _ Hkey) in *. simpl in Hmade, Hlen.
    apply Forall2_cons_inv_l in Hmade as (c & made' & Hc & Hmade' & ->).
    simpl in Hc. rewrite bind_emit, Hc.
    rewrite (IH (S i) (acc ++ [c]) made' Hmade') by lia.
    cbn [trace result zip_with]. by rewrite <- app_assoc.
Qed.

End MoreKeysFacts.

(** X4: when there are fewer keys than kinds and the factory makes a
    cipher from every kind that has a key, the construction loop calls
    the factory once per key and then indexes [cipherKey] past its end:
    the run has undefined behaviour before any transform. *)
Theorem missing_key_undefined {Cipher : Type} {ops : CipherOps Cipher}
    (makeCipher : CipherType -> text -> MakeResult Cipher) (env : Env)
    (settings : ProgramSettings) (cipherText : text) :
  helpRequested settings = false -> versionRequested settings = false ->
  read_input (Cipher := Cipher) env settings = mret cipherText ->
  (length (cipherKey settings) < length (cipherType settings))%nat ->
  (forall j t key, cipherType settings !! j = Some t ->
     cipherKey settings !! j = Some key ->
     exists c, makeCipher t key = Made c) ->
  main makeCipher env settings
  = mkM (zip_with EvMake (cipherType settings) (cipherKey settings)) Undefined.
Proof.
  intros Hhelp Hversion Hread Hlen Hmade.
  rewrite (main_process makeCipher env settings cipherText) by done.
  destruct (construct_accepting makeCipher settings (cipherType settings)
              0 []) as (Htr & _ & Hund); [done|].
  rewrite drop_0 in *. unfold process.
  rewrite bind_Undefined by (by apply Hund). by rewrite Htr.
Qed.

Lemma missing_key_undefined_witness :
  let env := mkEnv (fun _ => None) (list_ascii_of_string "HELLO")
                   (fun _ => true) in
  let settings := mkSettings false false [] [] [Vigenere; Playfair]
                    [list_ascii_of_string "KEY"] Encrypt in
  main (SpecCiphers.makeCipher SpecCiphers.letters) env settings
  = mkM [EvMake Vigenere (list_ascii_of_string "KEY")] Undefined.
Proof.
  intros env settings.
  apply (missing_key_undefined (SpecCiphers.makeCipher SpecCiphers.letters)
           env settings (list_ascii_of_string "HELLO"));
    [reflexivity|reflexivity|reflexivity|simpl; lia|].
  intros [|[|j]] t key Ht Hkey; simpl in *; simplify_eq.
  by eexists.
Defined.

(** X5: the construction loop stops at the first key the factory
    rejects.  When the factory throws [InvalidKey] for the kind and key
    at index [i] and has made a cipher from every pair before, the run
    is: one factory call for each of the pairs 0 to [i], in order, none
    for the pairs after, the message with [what()], and status 1. *)
Theorem first_invalid_key_stops {Cipher : Type} {ops : CipherOps Cipher}
    (makeCipher : CipherType -> text -> MakeResult Cipher) (env : Env)
    (settings : ProgramSettings) (cipherText : text)
    (i : nat) (t : CipherType) (key : text) (e : InvalidKey) :
  helpRequested settings = false -> versionRequested settings = false ->
  read_input (Cipher := Cipher) env settings = mret cipherText ->
  cipherType settings !! i = Some t ->
  cipherKey settings !! i = Some key ->
  makeCipher t key = Threw e ->
  (forall j t' key', (j < i)%nat -> cipherType settings !! j = Some t' ->
     cipherKey settings !! j = Some key' ->
     exists c, makeCipher t' key' = Made c) ->
  main makeCipher env settings
  = mkM (zip_with EvMake (take (S i) (cipherType settings))
                  (cipherKey settings)
         ++ [EvCerr ("[error] Invalid Key: " +:+ what e)])
        (Return 1).
Proof.
  intros Hhelp Hversion Hread Ht Hkey He Hbefore.
  rewrite (main_process makeCipher env settings cipherText) by done.
  unfold process.
  rewrite (construct_stops makeCipher settings _ 0 [] i t key
             ("[error] Invalid Key: " +:+ what e)); try done.
  left. by exists e.
Qed.

Lemma first_invalid_key_stops_witness :
  let env := mkEnv (fun _ => None) (list_ascii_of_string "HELLO")
                   (fun _ => true) in
  let settings := mkSettings false false [] [] [Playfair; Caesar; Vigenere]
                    [list_ascii_of_string "KEY"; list_ascii_of_string "99";
                     []] Encrypt in
  main (SpecCiphers.makeCipher SpecCiphers.letters) env settings
  = mkM [EvMake Playfair (list_ascii_of_string "KEY");
         EvMake Caesar (list_ascii_of_string "99");
         EvCerr "[error] Invalid Key: Caesar key is not a shift in range"]
        (Return 1).
Proof.
  intros env settings.
  apply (first_invalid_key_stops (SpecCiphers.makeCipher SpecCiphers.letters)
           env settings (list_ascii_of_string "HELLO") 1 Caesar
           (list_ascii_of_string "99")
           (mkInvalidKey "Caesar key is not a shift in range"));
    try reflexivity.
  intros [|j] t' key' Hj Ht' Hkey'; [|lia]. simpl in *. simplify_eq.
  by eexists.
Defined.

(** X6: a null pointer from the factory ends the run like a rejected
    key.  When the factory hands back a null [unique_ptr] for the kind
    and key at index [i] and has made a cipher from every pair before,
    the run is: one factory call for each of the pairs 0 to [i], the
    message of line 119, and status 1; no transform, no output. *)
Theorem null_cipher_stops {Cipher : Type} {ops : CipherOps Cipher}
    (makeCipher : CipherType -> text -> MakeResult Cipher) (env : Env)
    (settings : ProgramSettings) (cipherText : text)
    (i : nat) (t : CipherType) (key : text) :
  helpRequested settings = false -> versionRequested settings = false ->
  read_input (Cipher := Cipher) env settings = mret cipherText ->
  cipherType settings !! i = Some t ->
  cipherKey settings !! i = Some key ->
  makeCipher t key = NullPtr ->
  (forall j t' key', (j < i)%nat -> cipherType settings !! j = Some t' ->
     cipherKey settings !! j = Some key' ->
     exists c, makeCipher t' key' = Made c) ->
  main makeCipher env settings
  = mkM (zip_with EvMake (take (S i) (cipherType settings))
                  (cipherKey settings)
         ++ [EvCerr "[error] problem constructing requested cipher"])
        (Return 1).
Proof.
  intros Hhelp Hversion Hread Ht Hkey He Hbefore.
  rewrite (main_process makeCipher env settings cipherText) by done.
  unfold process.
  rewrite (construct_stops makeCipher settings _ 0 [] i t key
             "[error] problem constructing requested cipher"); try done.
  by right.
Qed.

Lemma null_cipher_stops_witness :
  let factory t key :=
    match t with
    | Playfair => NullPtr
    | _ => SpecCiphers.makeCipher SpecCiphers.letters t key
    end in
  let env := mkEnv (fun _ => None) (list_ascii_of_string "HELLO")
                   (fun _ => true) in
  let settings := mkSettings false false [] [] [Vigenere; Playfair; Caesar]
                    [list_ascii_of_string "KEY"; list_ascii_of_string "PLAY";
                     list_ascii_of_string "3"] Encrypt in
  main factory env settings
  = mkM [EvMake Vigenere (list_ascii_of_string "KEY");
         EvMake Playfair (list_ascii_of_string "PLAY");
         EvCerr "[error] problem constructing requested cipher"]
        (Return 1).
Proof.
  intros factory env settings.
  apply (null_cipher_stops factory env settings
           (list_ascii_of_string "HELLO") 1 Playfair
           (list_ascii_of_string "PLAY"));
    try reflexivity.
  intros [|j] t' key' Hj Ht' Hkey'; [|lia]. simpl in *. simplify_eq.
  by eexists.
Defined.

(** ** What of the settings a run reads *)

Section SettingsFacts.
Context {Cipher : Type} {ops : CipherOps Cipher}.
Variable makeCipher : CipherType -> text -> MakeResult Cipher.
Variable env : Env.
Variables settings1 settings2 : ProgramSettings.
Hypothesis same_mode : cipherMode settings1 = cipherMode settings2.
Hypothesis same_types : cipherType settings1 = cipherType settings2.

Lemma parallel_ext ciphers cipher cipherText :
  parallel settings1 ciphers cipher cipherText
  = parallel settings2 ciphers cipher cipherText.
Proof.
  set (front := default cipher (head ciphers)).
  assert (Hev : task_event settings1 front cipherText <$> task_indices
                = task_event settings2 front cipherText <$> task_indices).
  { apply list_fmap_ext. intros _ i _. unfold task_event.
    by rewrite same_mode. }
  assert (Htask : task settings1 front cipherText <$> task_indices
                  = task settings2 front cipherText <$> task_indices).
  { apply list_fmap_ext. intros _ i _. unfold task. by rewrite same_mode. }
  unfold parallel. fold front. by rewrite Hev, Htask.
Qed.

Lemma run_ciphers_ext ciphers todo cipherText :
  run_ciphers settings1 ciphers todo cipherText
  = run_ciphers settings2 ciphers todo cipherText.
Proof.
  revert cipherText. induction todo as [|cipher todo IH]; intros cipherText;
    [done|].
  rewrite !run_ciphers_cons. unfold caesar_requested, direct.
  rewrite same_types, same_mode, parallel_ext.
  apply bind_ext, IH.
Qed.

Hypothesis same_help : helpRequested settings1 = helpRequested settings2.
Hypothesis same_version :
  versionRequested settings1 = versionRequested settings2.
Hypothesis same_input : inputFile settings1 = inputFile settings2.
Hypothesis same_output : outputFile settings1 = outputFile settings2.
Hypothesis same_keys :
  forall j, (j < length (cipherType settings1))%nat ->
    cipherKey settings1 !! j = cipherKey settings2 !! j.

(** Two settings that differ only in the keys past the number of kinds
    give the same run. *)
Lemma main_ext : main makeCipher env settings1 = main makeCipher env settings2.
Proof.
  unfold main. rewrite same_help, same_version.
  destruct (helpRequested settings2); [done|].
  destruct (versionRequested settings2); [done|].
  unfold read_input. rewrite same_input. apply bind_ext. intros cipherText.
  unfold process. rewrite <- same_types.
  rewrite (construct_ext makeCipher settings1 settings2) by done.
  apply bind_ext. intros ciphers. cbn zeta.
  unfold staged. rewrite same_mode, run_ciphers_ext.
  apply bind_ext. intros out. unfold write_output. by rewrite same_output.
Qed.

End SettingsFacts.

(** X7: keys past the number of kinds are never read: with a key for
    every kind, adding keys at the end of [cipherKey] changes nothing of
    the run, events and status. *)
Theorem extra_keys_ignored {Cipher : Type} {ops : CipherOps Cipher}
    (makeCipher : CipherType -> text -> MakeResult Cipher) (env : Env)
    (help version : bool) (input output : text) (types : list CipherType)
    (keys extra : list text) (mode : CipherMode) :
  (length types <= length keys)%nat ->
  main makeCipher env
       (mkSettings help version input output types (keys ++ extra) mode)
  = main makeCipher env
         (mkSettings help version input output types keys mode).
Proof.
  intros Hlen. apply main_ext; try reflexivity.
  intros j Hj. simpl in *. apply lookup_app_l. lia.
Qed.

Lemma extra_keys_ignored_witness :
  let env := mkEnv (fun _ => None) (list_ascii_of_string "HELLO")
                   (fun _ => true) in
  main (SpecCiphers.makeCipher SpecCiphers.letters) env
       (mkSettings false false [] [] [Vigenere]
          ([list_ascii_of_string "KEY"] ++ [list_ascii_of_string "99"])
          Encrypt)
  = main (SpecCiphers.makeCipher SpecCiphers.letters) env
         (mkSettings false false [] [] [Vigenere]
            [list_ascii_of_string "KEY"] Encrypt).
Proof.
  intros env.
  apply (extra_keys_ignored (SpecCiphers.makeCipher SpecCiphers.letters) env).
  simpl. lia.
Defined.

(** ** Runs from standard input to standard output *)

Section DirectRun.
Context {Cipher : Type} {ops : CipherOps Cipher}.
Variable makeCipher : CipherType -> text -> MakeResult Cipher.
Variable env : Env.
Variable settings : ProgramSettings.
Variable ciphers : list Cipher.
Hypothesis no_help : helpRequested settings = false.
Hypothesis no_version : versionRequested settings = false.
Hypothesis from_cin : inputFile settings = [].
Hypothesis made :
  Forall2 (fun tk c => makeCipher tk.1 tk.2 = Made c)
          (zip (cipherType settings) (cipherKey settings)) ciphers.
Hypothesis enough_keys :
  (length (cipherType settings) <= length (cipherKey settings))%nat.

Lemma construct_run :
  construct makeCipher settings (cipherType settings) 0 []
  = mkM (zip_with EvMake (cipherType settings) (cipherKey settings))
        (Val ciphers).
Proof. by apply (construct_Made makeCipher settings _ 0 [] ciphers). Qed.

Lemma main_cin : main makeCipher env settings
                 = process makeCipher env settings (cin env).
Proof.
  apply main_process; [done|done|].
  unfold read_input. by rewrite decide_True.
Qed.

Lemma main_direct :
  Caesar ∉ cipherType settings -> outputFile settings = [] ->
  main makeCipher env settings
  = mkM (zip_with EvMake (cipherType settings) (cipherKey settings)
         ++ direct_calls settings (staged settings ciphers) (cin env)
         ++ [EvCout (foldl (fun s c => applyCipher c s (cipherMode settings))
                           (cin env) (staged settings ciphers) ++ nl)])
        (Return 0).
Proof.
  intros Hno Hout. rewrite main_cin.
  rewrite (process_without_caesar makeCipher env settings (cin env) ciphers);
    [by rewrite construct_run|by apply bool_decide_eq_false_2|done|].
  by rewrite construct_run.
Qed.

End DirectRun.

(** X8: a pipeline without a Caesar, read from standard input and
    written to standard output, with ciphers [ciphers] made by the
    factory from the kinds and keys: the run calls the factory once per
    kind in list order, then calls [applyCipher] once per cipher, each on
    the output of the one before, in list order when encrypting and in
    reversed list order when decrypting, then prints the last output and
    an end of line, and returns 0. *)
Theorem pipeline_without_caesar_in_order {Cipher : Type}
    {ops : CipherOps Cipher}
    (makeCipher : CipherType -> text -> MakeResult Cipher) (env : Env)
    (settings : ProgramSettings) (ciphers : list Cipher) :
  helpRequested settings = false -> versionRequested settings = false ->
  inputFile settings = [] -> outputFile settings = [] ->
  Caesar ∉ cipherType settings ->
  (length (cipherType settings) <= length (cipherKey settings))%nat ->
  Forall2 (fun tk c => makeCipher tk.1 tk.2 = Made c)
          (zip (cipherType settings) (cipherKey settings)) ciphers ->
  let order := match cipherMode settings with
               | Encrypt => ciphers
               | Decrypt => reverse ciphers
               end in
  main makeCipher env settings
  = mkM (zip_with EvMake (cipherType settings) (cipherKey settings)
         ++ direct_calls settings order (cin env)
         ++ [EvCout (foldl (fun s c => applyCipher c s (cipherMode settings))
                           (cin env) order ++ nl)])
        (Return 0).
Proof.
  intros Hhelp Hversion Hin Hout Hno Hlen Hmade order.
  rewrite (main_direct makeCipher env settings ciphers) by done.
  replace (staged settings ciphers) with order; [done|].
  unfold order, staged. by destruct (cipherMode settings).
Qed.

Lemma pipeline_without_caesar_in_order_witness :
  let env := mkEnv (fun _ => None) (list_ascii_of_string "HELLOWORLD")
                   (fun _ => true) in
  let settings := mkSettings false false [] [] [Vigenere; Playfair]
                    [list_ascii_of_string "KEY";
                     list_ascii_of_string "PLAYFAIR"] Decrypt in
  let vigenereKEY := SpecCiphers.VigenereCipher [10; 4; 24] in
  let playfair := SpecCiphers.PlayfairCipher
                    (list_ascii_of_string "PLAYFIRBCDEGHKMNOQSTUVWXZ") in
  main (SpecCiphers.makeCipher SpecCiphers.letters) env settings
  = mkM (zip_with EvMake (cipherType settings) (cipherKey settings)
         ++ direct_calls settings [playfair; vigenereKEY] (cin env)
         ++ [EvCout (foldl (fun s c => applyCipher c s Decrypt)
                           (cin env) [playfair; vigenereKEY] ++ nl)])
        (Return 0).
Proof.
  intros env settings vigenereKEY playfair.
  apply (pipeline_without_caesar_in_order
           (SpecCiphers.makeCipher SpecCiphers.letters) env settings
           [vigenereKEY; playfair]); try reflexivity.
  - by apply (bool_decide_unpack _).
  - repeat constructor.
Defined.

(** ** Encrypting, then decrypting, with the same pipeline *)

Section RoundTrip.
Context {Cipher : Type} {ops : CipherOps Cipher}.
Variable P : text -> Prop.
Variable ciphers : list Cipher.
Hypothesis undone :
  forall c s, c ∈ ciphers -> P s ->
    P (applyCipher c s Encrypt)
    /\ applyCipher c (applyCipher c s Encrypt) Decrypt = s.

(** Undoing the stages last to first undoes the pipeline. *)
Lemma foldl_round_trip (cs : list Cipher) (s : text) :
  cs ⊆ ciphers -> P s ->
  foldl (fun s c => applyCipher c s Decrypt)
        (foldl (fun s c => applyCipher c s Encrypt) s cs) (reverse cs)
  = s.
Proof.
  revert s. induction cs as [|c cs IH]; intros s Hsub Hs; [done|].
  assert (Hc : c ∈ ciphers) by (apply Hsub; by left).
  destruct (undone c s Hc Hs) as [HP Hback].
  rewrite reverse_cons, foldl_app. cbn [foldl].
  rewrite IH; [done| |done]. intros x Hx. apply Hsub. by right.
Qed.

End RoundTrip.

(** X9: a pipeline without a Caesar undoes itself.  When each cipher's
    decryption undoes its encryption on the texts of a class that
    encryption stays in, the run in mode Decrypt, given what the run in
    mode Encrypt printed (less the end of line), prints the text that
    run was given. *)
Theorem pipeline_without_caesar_round_trip {Cipher : Type}
    {ops : CipherOps Cipher}
    (makeCipher : CipherType -> text -> MakeResult Cipher)
    (P : text -> Prop) (types : list CipherType) (keys : list text)
    (ciphers : list Cipher) (env_enc env_dec : Env) :
  Caesar ∉ types ->
  (length types <= length keys)%nat ->
  Forall2 (fun tk c => makeCipher tk.1 tk.2 = Made c) (zip types keys)
          ciphers ->
  (forall c s, c ∈ ciphers -> P s ->
     P (applyCipher c s Encrypt)
     /\ applyCipher c (applyCipher c s Encrypt) Decrypt = s) ->
  P (cin env_enc) ->
  let settings mode := mkSettings false false [] [] types keys mode in
  let encrypted :=
    foldl (fun s c => applyCipher c s Encrypt) (cin env_enc) ciphers in
  cin env_dec = encrypted ->
  result (main makeCipher env_enc (settings Encrypt)) = Return 0
  /\ last (trace (main makeCipher env_enc (settings Encrypt)))
     = Some (EvCout (encrypted ++ nl))
  /\ result (main makeCipher env_dec (settings Decrypt)) = Return 0
  /\ last (trace (main makeCipher env_dec (settings Decrypt)))
     = Some (EvCout (cin env_enc ++ nl)).
Proof.
  intros Hno Hlen Hmade Hundone HP settings encrypted Hcin.
  rewrite (main_direct makeCipher env_enc (settings Encrypt) ciphers)
    by done.
  rewrite (main_direct makeCipher env_dec (settings Decrypt) ciphers)
    by done.
  cbn [result trace]. rewrite !app_assoc, !last_snoc.
  split_and!; [done|done|done|].
  do 3 f_equal. rewrite Hcin. unfold encrypted.
  by apply (foldl_round_trip P ciphers).
Qed.

Lemma shift_char_elem_of alphabet m k c :
  c ∈ alphabet -> SpecCiphers.shift_char alphabet m k c ∈ alphabet.
Proof.
  intros Hin. destruct (position_elem_of alphabet c Hin) as [p Hp].
  pose proof (position_lookup alphabet c p Hp) as Hc.
  pose proof (lookup_lt_Some _ _ _ Hc) as Hlt.
  unfold SpecCiphers.shift_char. rewrite Hp.
  assert (Hq : 0 <= SpecCiphers.shift_position alphabet m k (Z.of_nat p)
               < SpecCiphers.asize alphabet).
  { unfold SpecCiphers.shift_position.
    destruct m; apply Z.mod_pos_bound;
      unfold SpecCiphers.asize, size; lia. }
  destruct (lookup_lt_is_Some_2 alphabet
              (Z.to_nat (SpecCiphers.shift_position alphabet m k (Z.of_nat p))))
    as [c' Hc'].
  { unfold SpecCiphers.asize, size in Hq. lia. }
  rewrite Hc'. simpl. by eapply list_elem_of_lookup_2.
Qed.

Lemma vigenere_alphabet alphabet key s m :
  Forall (fun c => c ∈ alphabet) s ->
  Forall (fun c => c ∈ alphabet) (SpecCiphers.vigenere alphabet key s m).
Proof.
  intros Hs. unfold SpecCiphers.vigenere. apply Forall_lookup.
  intros i c. rewrite list_lookup_imap.
  destruct (s !! i) as [c0|] eqn:Hc0; [|done]. intros [= <-].
  apply shift_char_elem_of. rewrite Forall_lookup in Hs. by eapply Hs.
Qed.

Lemma pipeline_without_caesar_round_trip_witness :
  let types := [Vigenere; Vigenere] in
  let keys := [list_ascii_of_string "KEY"; list_ascii_of_string "LEMON"] in
  let settings mode := mkSettings false false [] [] types keys mode in
  let env s := mkEnv (fun _ => None) (list_ascii_of_string s)
                     (fun _ => true) in
  last (trace (main (SpecCiphers.makeCipher SpecCiphers.letters)
                 (env "HELLOWORLD") (settings Encrypt)))
  = Some (EvCout (list_ascii_of_string "CMVJFFCHXA" ++ nl))
  /\ last (trace (main (SpecCiphers.makeCipher SpecCiphers.letters)
                    (env "CMVJFFCHXA") (settings Decrypt)))
     = Some (EvCout (list_ascii_of_string "HELLOWORLD" ++ nl)).
Proof.
  intros types keys settings env.
  destruct (pipeline_without_caesar_round_trip
              (SpecCiphers.makeCipher SpecCiphers.letters)
              (Forall (fun c => c ∈ SpecCiphers.letters)) types keys
              [SpecCiphers.VigenereCipher [10; 4; 24];
               SpecCiphers.VigenereCipher [11; 4; 12; 14; 13]]
              (env "HELLOWORLD") (env "CMVJFFCHXA"))
    as (_ & Henc & _ & Hdec).
  - by apply (bool_decide_unpack _).
  - reflexivity.
  - repeat constructor.
  - intros c s Hc Hs.
    apply elem_of_cons in Hc as [->|Hc];
      [|apply elem_of_cons in Hc as [->|Hc]; [|by apply elem_of_nil in Hc]];
      (split; [by apply vigenere_alphabet
              |by apply (vigenere_round_trip _ NoDup_letters)]).
  - by apply (bool_decide_unpack _).
  - reflexivity.
  - split; [exact Henc|exact Hdec].
Defined.

(** ** The events of a run *)

Section EventFacts.
Context {Cipher : Type} {ops : CipherOps Cipher}.
Variable makeCipher : CipherType -> text -> MakeResult Cipher.
Variable env : Env.
Variable settings : ProgramSettings.

Lemma elem_of_trace_bind {A B} (m : M Cipher A) (k : A -> M Cipher B) e :
  e ∈ trace (m ≫= k) ->
  e ∈ trace m \/ exists a, result m = Val a /\ e ∈ trace (k a).
Proof.
  unfold mbind, M_bind. destruct (result m) as [a| | |]; cbn [trace]; auto.
  intros [?|?]%elem_of_app; [by left|right; by exists a].
Qed.

(** Every event of a run satisfies a property that the events of its
    four pieces satisfy. *)
Lemma main_Forall (Q : Event Cipher -> Prop) :
  (helpRequested settings = true -> Q (EvCout usage)) ->
  (helpRequested settings = false -> versionRequested settings = true ->
   Q (EvCout (list_ascii_of_string "0.5.0" ++ nl))) ->
  (forall msg, Q (EvCerr msg)) ->
  (forall t key, Q (EvMake t key)) ->
  (forall e, is_apply e = true -> one_branch settings e -> Q e) ->
  (forall out,
     Forall Q (trace (write_output (Cipher := Cipher) env settings out
                        ≫= fun _ => return_ (A := unit) 0))) ->
  Forall Q (trace (main makeCipher env settings)).
Proof.
  intros Hhelp Hversion Hcerr Hmake Hcall Hwrite. unfold main.
  destruct (helpRequested settings); [by repeat constructor; auto|].
  destruct (versionRequested settings); [by repeat constructor; auto|].
  assert (Hquiet : forall tr : list (Event Cipher),
            Forall quiet tr -> Forall Q tr).
  { intros tr Hq. eapply Forall_impl; [exact Hq|].
    intros [] [Happly Hout]; simpl in *; auto; done. }
  apply trace_bind_Forall; [apply Hquiet, read_input_quiet|].
  intros cipherText _. unfold process.
  apply trace_bind_Forall; [apply Hquiet, construct_quiet|].
  intros ciphers _. cbn zeta. apply trace_bind_Forall.
  - eapply Forall_impl; [apply run_ciphers_one_branch|].
    intros e [Happly Hone]. by apply Hcall.
  - intros out _. apply Hwrite.
Qed.

(** The factory calls of the construction loop pair the kind and the key
    of the same index. *)
Lemma construct_pairs types i acc t key :
  EvMake t key ∈ trace (construct makeCipher settings types i acc) ->
  exists j, types !! j = Some t
            /\ cipherKey settings !! (i + j)%nat = Some key.
Proof.
  revert i acc. induction types as [|t0 types IH]; intros i acc Hin.
  - by apply elem_of_nil in Hin.
  - rewrite construct_cons in Hin.
    destruct (cipherKey settings !! i) as [key0|] eqn:Hkey0;
      [|by apply elem_of_nil in Hin].
    rewrite bind_emit in Hin. cbn [trace] in Hin.
    apply elem_of_cons in Hin as [[= -> ->]|Hin].
    { exists 0%nat. by rewrite Nat.add_0_r. }
    destruct (makeCipher t0 key0).
    + rewrite bind_emit in Hin. cbn [trace] in Hin.
      apply elem_of_cons in Hin as [?|Hin]; [done|].
      by apply elem_of_nil in Hin.
    + rewrite bind_emit in Hin. cbn [trace] in Hin.
      apply elem_of_cons in Hin as [?|Hin]; [done|].
      by apply elem_of_nil in Hin.
    + destruct (IH _ _ Hin) as (j & Ht & Hkey). exists (S j).
      split; [done|]. by replace (i + S j)%nat with (S i + j)%nat by lia.
Qed.

End EventFacts.

(** X10: a run never mixes the two branches of the loop over the
    ciphers.  Every [applyCipher] call of a run is made in the mode of
    the settings; it is made by a chunk task only when a Caesar is among
    the requested kinds, and directly only when none is. *)
Theorem one_branch_per_run {Cipher : Type} {ops : CipherOps Cipher}
    (makeCipher : CipherType -> text -> MakeResult Cipher) (env : Env)
    (settings : ProgramSettings) :
  Forall (fun e =>
            match e with
            | EvAsync _ _ _ m =>
                (Caesar ∈ cipherType settings) /\ m = cipherMode settings
            | EvDirect _ _ m =>
                (Caesar ∉ cipherType settings) /\ m = cipherMode settings
            | _ => True
            end)
         (trace (main makeCipher env settings)).
Proof.
  apply main_Forall; try done.
  - intros [] Happly Hone; simpl in *; try done.
    + destruct Hone as [Hreq ->]. split; [|done].
      by apply bool_decide_eq_true_1 in Hreq.
    + destruct Hone as [Hreq ->]. split; [|done].
      by apply bool_decide_eq_false_1 in Hreq.
  - intros out.
    destruct (write_output_cases (Cipher := Cipher) settings env out)
      as [[_ ->]|[(_ & _ & ->)|(_ & _ & msg & ->)]]; by repeat constructor.
Qed.

(** X11: the factory is called only in a run that is neither a help nor
    a version request and whose input could be read, and only on a kind
    and a key that stand at the same index of [cipherType] and
    [cipherKey]. *)
Theorem factory_calls_are_aligned {Cipher : Type} {ops : CipherOps Cipher}
    (makeCipher : CipherType -> text -> MakeResult Cipher) (env : Env)
    (settings : ProgramSettings) (t : CipherType) (key : text) :
  EvMake t key ∈ trace (main makeCipher env settings) ->
  helpRequested settings = false
  /\ versionRequested settings = false
  /\ (exists cipherText,
        read_input (Cipher := Cipher) env settings = mret cipherText)
  /\ exists j, cipherType settings !! j = Some t
               /\ cipherKey settings !! j = Some key.
Proof.
  unfold main. intros Hin.
  destruct (helpRequested settings).
  { apply elem_of_cons in Hin as [?|Hin]; [done|by apply elem_of_nil in Hin]. }
  destruct (versionRequested settings).
  { apply elem_of_cons in Hin as [?|Hin]; [done|by apply elem_of_nil in Hin]. }
  split; [done|]. split; [done|].
  apply elem_of_trace_bind in Hin as [Hin|(cipherText & Hread & Hin)].
  { destruct (read_input_cases (Cipher := Cipher) env settings)
      as [[_ Hr]|[(s & _ & _ & Hr)|(_ & _ & msg & Hr)]];
      rewrite Hr in Hin; cbn [trace mret M_ret] in Hin.
    - by apply elem_of_nil in Hin.
    - by apply elem_of_nil in Hin.
    - apply elem_of_cons in Hin as [?|Hin]; [done|by apply elem_of_nil in Hin]. }
  split.
  { destruct (read_input_cases (Cipher := Cipher) env settings)
      as [[_ Hr]|[(s & _ & _ & Hr)|(_ & _ & msg & Hr)]];
      [by eexists|by eexists|by rewrite Hr in Hread]. }
  unfold process in Hin.
  apply elem_of_trace_bind in Hin as [Hin|(ciphers & _ & Hin)].
  { by apply (construct_pairs makeCipher settings _ 0 []) in Hin. }
  cbn zeta in Hin.
  apply elem_of_trace_bind in Hin as [Hin|(out & _ & Hin)].
  - pose proof (run_ciphers_one_branch settings (staged settings ciphers)
                  (staged settings ciphers) cipherText) as Hcalls.
    rewrite Forall_forall in Hcalls. by destruct (Hcalls _ Hin) as [? _].
  - destruct (write_output_cases (Cipher := Cipher) settings env out)
      as [[_ Hw]|[(_ & _ & Hw)|(_ & _ & msg & Hw)]];
      rewrite Hw in Hin;
      (apply elem_of_cons in Hin as [?|Hin];
       [done|by apply elem_of_nil in Hin]).
Qed.

Lemma factory_calls_are_aligned_witness :
  let env := mkEnv (fun _ => None) (list_ascii_of_string "HELLO")
                   (fun _ => true) in
  let settings := mkSettings false false [] [] [Vigenere; Caesar]
                    [list_ascii_of_string "KEY"; list_ascii_of_string "3"]
                    Encrypt in
  exists j, cipherType settings !! j = Some Caesar
            /\ cipherKey settings !! j = Some (list_ascii_of_string "3").
Proof.
  intros env settings.
  apply (factory_calls_are_aligned
           (SpecCiphers.makeCipher SpecCiphers.letters) env settings).
  apply list_elem_of_In. vm_compute. tauto.
Defined.

(** ** The cipher the chunk tasks apply *)

Section FrontFacts.
Context {Cipher : Type} {ops : CipherOps Cipher}.
Variable settings : ProgramSettings.

Lemma run_ciphers_front ciphers todo cipherText i c chunk m :
  EvAsync i c chunk m ∈ trace (run_ciphers settings ciphers todo cipherText) ->
  todo ⊆ ciphers ->
  head ciphers = Some c.
Proof.
  intros Hin Hsub.
  destruct (caesar_requested settings) eqn:Hreq.
  - destruct ciphers as [|first rest].
    { destruct todo as [|x todo]; [by apply elem_of_nil in Hin|].
      exfalso. eapply not_elem_of_nil, (Hsub x). by left. }
    pose proof (run_ciphers_caesar_requested settings (first :: rest) first
                  todo cipherText Hreq eq_refl) as Hall.
    rewrite Forall_forall in Hall.
    destruct (Hall _ Hin) as (i' & c' & [= -> -> -> ->]). done.
  - pose proof (run_ciphers_one_branch settings ciphers todo cipherText)
      as Hall.
    rewrite Forall_forall in Hall. destruct (Hall _ Hin) as [_ [Hyes _]].
    congruence.
Qed.

End FrontFacts.

(** X12: in every stage of a run, whatever the kind of the stage, the
    chunk tasks apply one and the same cipher: the first of the vector
    as staged, which is the cipher made for the first kind when
    encrypting and the cipher made for the last kind when decrypting. *)
Theorem chunk_tasks_apply_front {Cipher : Type} {ops : CipherOps Cipher}
    (makeCipher : CipherType -> text -> MakeResult Cipher) (env : Env)
    (settings : ProgramSettings) (ciphers : list Cipher)
    (i : Z) (c : Cipher) (chunk : text) (m : CipherMode) :
  (length (cipherType settings) <= length (cipherKey settings))%nat ->
  Forall2 (fun tk c => makeCipher tk.1 tk.2 = Made c)
          (zip (cipherType settings) (cipherKey settings)) ciphers ->
  EvAsync i c chunk m ∈ trace (main makeCipher env settings) ->
  match cipherMode settings with
  | Encrypt => head ciphers = Some c
  | Decrypt => last ciphers = Some c
  end.
Proof.
  intros Hlen Hmade Hin.
  assert (Hfront : head (staged settings ciphers) = Some c).
  { unfold main in Hin.
    destruct (helpRequested settings).
    { apply elem_of_cons in Hin as [?|Hin]; [done|by apply elem_of_nil in Hin]. }
    destruct (versionRequested settings).
    { apply elem_of_cons in Hin as [?|Hin]; [done|by apply elem_of_nil in Hin]. }
    apply elem_of_trace_bind in Hin as [Hin|(cipherText & _ & Hin)].
    { pose proof (read_input_quiet (Cipher := Cipher) env settings) as Hq.
      rewrite Forall_forall in Hq. by destruct (Hq _ Hin) as [? _]. }
    unfold process in Hin.
    rewrite (construct_run makeCipher settings ciphers Hmade Hlen) in Hin.
    apply elem_of_trace_bind in Hin as [Hin|(ciphers' & [= <-] & Hin)].
    { cbn [trace] in Hin. apply list_elem_of_lookup in Hin as [j Hj].
      apply lookup_zip_with_Some in Hj as (? & ? & ? & _). done. }
    cbn zeta in Hin.
    apply elem_of_trace_bind in Hin as [Hin|(out & _ & Hin)].
    - by apply run_ciphers_front in Hin.
    - pose proof (write_output_trace (Cipher := Cipher) env settings out) as Hw.
      rewrite Forall_forall in Hw. by specialize (Hw _ Hin). }
  unfold staged in Hfront. destruct (cipherMode settings).
  - by rewrite decide_False in Hfront.
  - rewrite decide_True in Hfront by done. by rewrite head_reverse in Hfront.
Qed.

Lemma chunk_tasks_apply_front_witness :
  let env := mkEnv (fun _ => None) (list_ascii_of_string "HELLOWORLD")
                   (fun _ => true) in
  let settings := mkSettings false false [] [] [Vigenere; Caesar]
                    [list_ascii_of_string "KEY"; list_ascii_of_string "3"]
                    Decrypt in
  let ciphers := [SpecCiphers.VigenereCipher [10; 4; 24];
                  SpecCiphers.CaesarCipher 3] in
  last ciphers = Some (SpecCiphers.CaesarCipher 3).
Proof.
  intros env settings ciphers.
  apply (chunk_tasks_apply_front
           (SpecCiphers.makeCipher SpecCiphers.letters) env settings ciphers
           0 (SpecCiphers.CaesarCipher 3) (list_ascii_of_string "HE") Decrypt).
  - reflexivity.
  - repeat constructor.
  - apply list_elem_of_In. vm_compute. tauto.
Defined.

(** ** Where the result goes *)

(** X13: when an output file is named, the processed text never goes
    to standard output: the only things a run can write there are the
    help text, on a help request, and the version, on a version request
    without a help request.  The only file written is the one named, and
    only if its stream is good.  In a run that is neither a help nor a
    version request, a stream that is not good means that the run does
    not return 0. *)
Theorem output_file_routing {Cipher : Type} {ops : CipherOps Cipher}
    (makeCipher : CipherType -> text -> MakeResult Cipher) (env : Env)
    (settings : ProgramSettings) :
  outputFile settings <> [] ->
  Forall (fun e =>
            match e with
            | EvCout s =>
                (helpRequested settings = true /\ s = usage)
                \/ (helpRequested settings = false
                    /\ versionRequested settings = true
                    /\ s = list_ascii_of_string "0.5.0" ++ nl)
            | EvFile name _ =>
                name = outputFile settings
                /\ ofstream_good env (outputFile settings) = true
            | _ => True
            end)
         (trace (main makeCipher env settings))
  /\ (helpRequested settings = false -> versionRequested settings = false ->
      ofstream_good env (outputFile settings) = false ->
      result (main makeCipher env settings) <> Return 0).
Proof.
  intros Hfile.
  set (Q := fun e : Event Cipher =>
              match e with
              | EvCout s =>
                  (helpRequested settings = true /\ s = usage)
                  \/ (helpRequested settings = false
                      /\ versionRequested settings = true
                      /\ s = list_ascii_of_string "0.5.0" ++ nl)
              | EvFile name _ =>
                  name = outputFile settings
                  /\ ofstream_good env (outputFile settings) = true
              | _ => True
              end).
  assert (HQ : Forall Q (trace (main makeCipher env settings))).
  { apply main_Forall; try done.
    - intros Hhelp. by left.
    - intros Hhelp Hversion. by right.
    - intros [] Happly _; simpl in *; done.
    - intros out.
      destruct (write_output_cases (Cipher := Cipher) settings env out)
        as [[? _]|[(_ & Hgood & ->)|(_ & _ & msg & ->)]];
        [done|by repeat constructor..]. }
  split; [exact HQ|]. intros Hhelp Hversion Hbad Hret.
  destruct (main_accounted makeCipher env settings 0 Hret)
    as [[_ (e & Hlast & Hout)]|[? _]]; [|done].
  apply last_Some_elem_of in Hlast. rewrite Forall_forall in HQ.
  specialize (HQ e Hlast). destruct e; simpl in *; try done.
  - destruct HQ as [[? _]|(_ & ? & _)]; congruence.
  - destruct HQ as [_ HQ]. congruence.
Qed.

Lemma output_file_routing_witness :
  let env := mkEnv (fun _ => None) (list_ascii_of_string "HELLO")
                   (fun _ => false) in
  let settings := mkSettings false false []
                    (list_ascii_of_string "out.txt") [Vigenere]
                    [list_ascii_of_string "KEY"] Encrypt in
  result (main (SpecCiphers.makeCipher SpecCiphers.letters) env settings)
  <> Return 0.
Proof.
  intros env settings.
  apply (output_file_routing (SpecCiphers.makeCipher SpecCiphers.letters)
           env settings); done.
Defined.

(** A help request with an output file named: the help text goes to
    standard output and the file is left alone. *)
Example help_with_output_file :
  let env := mkEnv (fun _ => None) (list_ascii_of_string "HELLO")
                   (fun _ => false) in
  let settings := mkSettings true false []
                    (list_ascii_of_string "out.txt") [Vigenere]
                    [list_ascii_of_string "KEY"] Encrypt in
  main (SpecCiphers.makeCipher SpecCiphers.letters) env settings
  = mkM [EvCout usage] (Return 0).
Proof. reflexivity. Qed.

(** ** The futures, once more *)

Lemma while_not_ready_Some fuel completes status now t' :
  (status = ready -> exists t, completes = Some t /\ t <= now) ->
  while_not_ready fuel completes status now = Some t' ->
  now <= t' /\ exists t, completes = Some t /\ t <= t'.
Proof.
  revert status now. induction fuel as [|fuel IH]; intros status now Hst;
    [done|].
  cbn [while_not_ready]. case_decide as Hready.
  - intros [= <-]. split; [lia|]. by apply Hst.
  - unfold wait_for. destruct completes as [t|].
    + case_decide as Hdone; intros Hres.
      * apply IH in Hres as [Hle Hex]; [split; [lia|done]|].
        intros _. exists t. split; [done|lia].
      * apply IH in Hres as [Hle Hex]; [split; [lia|done]|done].
    + intros Hres. apply IH in Hres as [Hle Hex]; [split; [lia|done]|done].
Qed.

Lemma wait_future_Some fuel completes now t' :
  wait_future fuel completes now = Some t' ->
  now <= t' /\ exists t, completes = Some t /\ t <= t'.
Proof.
  unfold wait_future, wait_for. destruct completes as [t|].
  - case_decide as Hdone; intros Hres.
    + apply while_not_ready_Some in Hres as [Hle Hex]; [split; [lia|done]|].
      intros _. exists t. split; [done|lia].
    + apply while_not_ready_Some in Hres as [Hle Hex];
        [split; [lia|done]|done].
  - intros Hres.
    apply while_not_ready_Some in Hres as [Hle Hex]; [split; [lia|done]|done].
Qed.

(** X14: the wait loop is a join: when it lets the main thread through,
    every task has completed, none later than the time at which the loop
    ends, and the clock has not gone back. *)
Theorem wait_is_a_join (fuel : nat) (tasks : list (option Z)) (now t' : Z) :
  wait_futures fuel tasks now = Some t' ->
  now <= t'
  /\ Forall (fun completes => exists t, completes = Some t /\ t <= t') tasks.
Proof.
  revert now. induction tasks as [|completes tasks IH]; intros now.
  - intros [= <-]. split; [lia|constructor].
  - cbn [wait_futures].
    destruct (wait_future fuel completes now) as [now'|] eqn:Hone; [|done].
    cbn [mbind option_bind]. intros Hrest.
    apply wait_future_Some in Hone as [Hle (t & -> & Ht)].
    apply IH in Hrest as [Hle' Hall]. split; [lia|].
    constructor; [|done]. exists t. split; [done|lia].
Qed.

Lemma wait_is_a_join_witness :
  0 <= 7
  /\ Forall (fun completes => exists t, completes = Some t /\ t <= 7)
            [Some 0; Some 7; Some 2; Some 4].
Proof.
  apply (wait_is_a_join 10 [Some 0; Some 7; Some 2; Some 4] 0 7).
  reflexivity.
Defined.

(** X15: the main thread reads no result while a task is still running:
    as long as one of the four tasks has not completed, the stage hands
    back nothing, whatever the other tasks have done. *)
Theorem stage_waits_for_every_task {Cipher : Type} {ops : CipherOps Cipher}
    (settings : ProgramSettings) (ciphers : list Cipher) (cipher : Cipher)
    (cipherText : text) (sched : list nat) (i : nat) :
  (i < Z.to_nat numThreads)%nat -> i ∉ sched ->
  parallel_scheduled settings ciphers cipher cipherText sched = None.
Proof.
  intros Hi Hnot. unfold parallel_scheduled, wait_all.
  destruct (mapM id _) as [results|] eqn:Hall; [|done]. exfalso.
  apply mapM_Some_1 in Hall.
  assert (Hlook : futures (run_tasks settings
                             (default cipher (head ciphers))
                             (launch cipherText) sched) !! i = Some None).
  { rewrite run_tasks_lookup, decide_False by done.
    cbn [launch futures]. by apply lookup_replicate_2. }
  destruct (Forall2_lookup_l _ _ _ _ _ Hall Hlook) as (r & _ & Hr).
  done.
Qed.

Lemma stage_waits_for_every_task_witness :
  let settings := mkSettings false false [] [] [Caesar]
                    [list_ascii_of_string "3"] Encrypt in
  let c := SpecCiphers.CaesarCipher 3 in
  parallel_scheduled settings [c] c (list_ascii_of_string "HELLOWORLD")
                     [3; 1; 0]%nat
  = None.
Proof.
  intros settings c.
  apply (stage_waits_for_every_task settings [c] c
           (list_ascii_of_string "HELLOWORLD") [3; 1; 0]%nat 2).
  - unfold numThreads. lia.
  - by apply (bool_decide_unpack _).
Defined.

(** ** A pipeline with a Caesar, end to end *)

Section ChunkedRun.
Context {Cipher : Type} {ops : CipherOps Cipher}.
Variable settings : ProgramSettings.
Variable first : Cipher.
Variable f : ascii -> ascii.
Hypothesis character_wise :
  forall s, applyCipher first s (cipherMode settings) = f <$> s.
Hypothesis requested : caesar_requested settings = true.

Lemma run_ciphers_iter ciphers todo cipherText :
  head ciphers = Some first ->
  size cipherText < size_t_modulus ->
  result (run_ciphers settings ciphers todo cipherText)
  = Val (Nat.iter (length todo) (fmap f) cipherText).
Proof.
  intros Hfirst. revert cipherText.
  induction todo as [|cipher todo IH]; intros cipherText Hfits; [done|].
  rewrite run_ciphers_cons, requested.
  pose proof (parallel_character_wise settings f ciphers cipher cipherText
                Hfits) as Hstage.
  rewrite Hfirst in Hstage. cbn [default] in Hstage.
  specialize (Hstage character_wise). rewrite character_wise in Hstage.
  rewrite (bind_Val _ _ _ Hstage). cbn [result].
  rewrite IH by (unfold size in *; by rewrite length_fmap).
  cbn [length]. by rewrite Nat.iter_succ_r.
Qed.

End ChunkedRun.

(** X16: a pipeline with a Caesar among its kinds, from standard input
    to standard output, whose front cipher (the one made for the first
    kind when encrypting, for the last kind when decrypting) transforms
    character by character: the run prints the input with that
    character map applied once per stage, as many times as there are
    kinds, and returns 0.  With one kind this is the transform of the
    whole text. *)
Theorem chunked_run_iterates_front {Cipher : Type} {ops : CipherOps Cipher}
    (makeCipher : CipherType -> text -> MakeResult Cipher) (env : Env)
    (settings : ProgramSettings) (ciphers : list Cipher) (first : Cipher)
    (f : ascii -> ascii) :
  helpRequested settings = false -> versionRequested settings = false ->
  inputFile settings = [] -> outputFile settings = [] ->
  Caesar ∈ cipherType settings ->
  (length (cipherType settings) <= length (cipherKey settings))%nat ->
  Forall2 (fun tk c => makeCipher tk.1 tk.2 = Made c)
          (zip (cipherType settings) (cipherKey settings)) ciphers ->
  match cipherMode settings with
  | Encrypt => head ciphers = Some first
  | Decrypt => last ciphers = Some first
  end ->
  (forall s, applyCipher first s (cipherMode settings) = f <$> s) ->
  size (cin env) < size_t_modulus ->
  result (main makeCipher env settings) = Return 0
  /\ last (trace (main makeCipher env settings))
     = Some (EvCout (Nat.iter (length (cipherType settings)) (fmap f)
                              (cin env) ++ nl)).
Proof.
  intros Hhelp Hversion Hin Hout Hreq Hlen Hmade Hfirst Hf Hfits.
  assert (Hhead : head (staged settings ciphers) = Some first).
  { unfold staged. destruct (cipherMode settings).
    - by rewrite decide_False.
    - rewrite decide_True by done. by rewrite head_reverse. }
  assert (Hn : length (staged settings ciphers)
               = length (cipherType settings)).
  { apply Forall2_length in Hmade. rewrite length_zip_with in Hmade.
    unfold staged. case_decide; rewrite ?length_reverse; lia. }
  pose proof (run_ciphers_iter settings first f Hf
                (bool_decide_eq_true_2 _ Hreq)
                (staged settings ciphers) (staged settings ciphers)
                (cin env) Hhead Hfits) as Hrun.
  rewrite Hn in Hrun.
  rewrite (main_cin makeCipher env settings Hhelp Hversion Hin).
  rewrite (process_run makeCipher env settings _ ciphers _
             ltac:(by rewrite (construct_run makeCipher settings ciphers))
             Hrun).
  destruct (write_output_cases (Cipher := Cipher) settings env
              (Nat.iter (length (cipherType settings)) (fmap f) (cin env)))
    as [[_ ->]|[(? & _)|(? & _)]]; [|done|done].
  cbn [result trace]. split; [done|]. by rewrite !app_assoc, last_snoc.
Qed.

Lemma chunked_run_iterates_front_witness :
  let env := mkEnv (fun _ => None) (list_ascii_of_string "HELLOWORLD")
                   (fun _ => true) in
  let settings := mkSettings false false [] [] [Caesar; Caesar]
                    [list_ascii_of_string "1"; list_ascii_of_string "2"]
                    Encrypt in
  let run := main (SpecCiphers.makeCipher SpecCiphers.letters) env settings in
  result run = Return 0
  /\ last (trace run)
     = Some (EvCout (Nat.iter 2
                       (fmap (SpecCiphers.shift_char SpecCiphers.letters
                                Encrypt 1))
                       (list_ascii_of_string "HELLOWORLD") ++ nl)).
Proof.
  intros env settings run.
  apply (chunked_run_iterates_front
           (SpecCiphers.makeCipher SpecCiphers.letters) env settings
           [SpecCiphers.CaesarCipher 1; SpecCiphers.CaesarCipher 2]
           (SpecCiphers.CaesarCipher 1)
           (SpecCiphers.shift_char SpecCiphers.letters Encrypt 1));
    try reflexivity.
  - by apply (bool_decide_unpack _).
  - repeat constructor.
Defined.
